(** * Kindred-Ikon ski home finder: the multi-resort search pipeline

    A shallow embedding of [backend/backend_api.py]: the date range
    partitioner ([to_iso_date_range], [make_monthly_date_ranges]), the
    driving time lookup ([get_driving_time]), the polygon builder
    ([make_polygon]), the aggregation step ([resort_map_multiple]) and the
    result formatting loop of the [/api/search] route ([search]).

    Modelling conventions.
    - A Python exception is a value of [exn]; code that may raise returns
      [exc A], and [try ... except] is [try_except].
    - A [datetime] at midnight is a [date] record; [datetime.strptime] with
      the format [%Y-%m-%d] is modelled from its range checks on.
    - A Python float that is a driving time (or a coordinate of a listing)
      is the rational it denotes; NaN and the infinities are left out.
      [None] is [None].
    - A Python [dict] whose iteration order matters is an association list
      in insertion order. *)

From Stdlib Require Import List ZArith QArith Bool String Ascii Lia.
From Stdlib Require Import DecimalString.
From Stdlib Require Import Permutation Sorted Reals.
Import ListNotations.

Local Open Scope Z_scope.

(** ** Exceptions *)

(** The exception classes the modelled code can raise; all of them derive
    from Python's [Exception]. *)
Inductive exn : Type :=
| ValueError
| KeyError
| IndexError
| TypeError
| OverflowError
| RequestException.

Definition exc (A : Type) : Type := (exn + A)%type.

Definition ret {A} (a : A) : exc A := inr a.
Definition raise {A} (e : exn) : exc A := inl e.
Definition bind {A B} (m : exc A) (k : A -> exc B) : exc B :=
  match m with
  | inl e => inl e
  | inr a => k a
  end.

Notation "x <- m ;; k" := (bind m (fun x => k))
  (at level 61, m at next level, right associativity).

(** ** Calendar dates *)

Module Dates.

Record date : Type := mkDate { year : Z; month : Z; day : Z }.

Definition MINYEAR : Z := 1.
Definition MAXYEAR : Z := 9999.

Definition is_leap (y : Z) : bool :=
  ((y mod 4 =? 0) && negb (y mod 100 =? 0)) || (y mod 400 =? 0).

(** [calendar.monthrange(year, month)[1]] *)
Definition days_in_month (y m : Z) : Z :=
  if m =? 2 then (if is_leap y then 29 else 28)
  else if (m =? 4) || (m =? 6) || (m =? 9) || (m =? 11) then 30
  else 31.

Definition valid_date (d : date) : bool :=
  (MINYEAR <=? year d) && (year d <=? MAXYEAR) &&
  (1 <=? month d) && (month d <=? 12) &&
  (1 <=? day d) && (day d <=? days_in_month (year d) (month d)).

(** [datetime.strptime(s, "%Y-%m-%d")]: the fields are range checked and a
    [ValueError] is raised when they are not a calendar date. *)
Definition strptime (d : date) : exc date :=
  if valid_date d then ret d else raise ValueError.

(** [a < b] on datetimes *)
Definition date_ltb (a b : date) : bool :=
  (year a <? year b) ||
  ((year a =? year b) &&
   ((month a <? month b) || ((month a =? month b) && (day a <? day b)))).

(** [a <= b] and [a >= b] on datetimes *)
Definition date_leb (a b : date) : bool := negb (date_ltb b a).
Definition date_geb (a b : date) : bool := date_leb b a.

(** Python's [min(a, b)]: the first argument unless the second is smaller. *)
Definition date_min (a b : date) : date := if date_ltb b a then b else a.

(** [dt + relativedelta(months=1)]: the month is advanced, the day is
    clipped to the length of the new month, and [dt.replace] raises a
    [ValueError] past [MAXYEAR]. *)
Definition add_one_month (dt : date) : exc date :=
  let m := month dt + 1 in
  let y := if 12 <? m then year dt + 1 else year dt in
  let m := if 12 <? m then m - 12 else m in
  let d := Z.min (days_in_month y m) (day dt) in
  if y <=? MAXYEAR then ret (mkDate y m d) else raise ValueError.

Definition digit (n : Z) : ascii := ascii_of_nat (48 + Z.to_nat (n mod 10)).

Definition pad2 (n : Z) : string :=
  String (digit (n / 10)) (String (digit n) EmptyString).

(** The decimal digits of a natural number, without padding. *)
Definition digits (n : Z) : string :=
  NilZero.string_of_uint (N.to_uint (Z.to_N n)).

(** [dt.strftime("%Y-%m-%dT%H:%M:%S.000Z")] of a datetime at midnight. The
    C library's [%Y] writes the year without padding: a year below 1000
    has fewer than four digits. *)
Definition strftime_iso (d : date) : string :=
  (digits (year d) ++ "-" ++ pad2 (month d) ++ "-" ++ pad2 (day d)
   ++ "T00:00:00.000Z")%string.

(** [to_iso_date_range] on already parsed datetimes, as the monthly loop
    calls it ([ensure_dt] is the identity there). *)
Definition to_iso_date_range_dt (dt_start dt_end : date) : string * string :=
  (strftime_iso dt_start, strftime_iso dt_end).

(** [to_iso_date_range] on the two date strings of a request. *)
Definition to_iso_date_range (start_date end_date : date)
  : exc (string * string) :=
  dt_start <- strptime start_date ;;
  dt_end <- strptime end_date ;;
  ret (to_iso_date_range_dt dt_start dt_end).

(** The [while current_date < end_date_dt] loop of
    [make_monthly_date_ranges]; [None] when the fuel runs out. *)
Fixpoint monthly_loop (fuel : nat) (current_date end_date_dt : date)
  : option (exc (list (string * string))) :=
  match fuel with
  | O => None
  | S fuel' =>
      if date_ltb current_date end_date_dt then
        match add_one_month current_date with
        | inl e => Some (raise e)
        | inr next_month =>
            let range_end := date_min next_month end_date_dt in
            match monthly_loop fuel' range_end end_date_dt with
            | None => None
            | Some (inl e) => Some (raise e)
            | Some (inr date_ranges) =>
                Some (ret (to_iso_date_range_dt current_date range_end
                           :: date_ranges))
            end
        end
      else Some (ret [])
  end.

(** Index of the calendar month of a date. *)
Definition month_index (d : date) : Z := 12 * year d + month d.

(** Enough iterations for the loop from [s] to [e]. *)
Definition loop_fuel (s e : date) : nat :=
  Z.to_nat (month_index e - month_index s) + 2.

Definition make_monthly_date_ranges (start_date end_date : date)
  : option (exc (list (string * string))) :=
  match strptime start_date with
  | inl e => Some (raise e)
  | inr current_date =>
      match strptime end_date with
      | inl e => Some (raise e)
      | inr end_date_dt =>
          monthly_loop (loop_fuel current_date end_date_dt)
                       current_date end_date_dt
      end
  end.

Inductive date_type : Type := flexible | exact.

(** The date ranges [explore_map_multiple] sends upstream. *)
Definition formatted_date_range (start_date end_date : date) (dt : date_type)
  : option (exc (list (string * string))) :=
  match dt with
  | flexible => make_monthly_date_ranges start_date end_date
  | exact =>
      Some (r <- to_iso_date_range start_date end_date ;; ret [r])
  end.

End Dates.

(** ** Python values read from JSON *)

Module Json.

#[local] Unset Elimination Schemes.

Inductive json : Type :=
| JNull
| JBool (b : bool)
| JNum (q : Q)
| JStr (s : string)
| JArr (l : list json)
| JObj (kv : list (string * json)).

#[local] Set Elimination Schemes.

Fixpoint dict_lookup (k : string) (kv : list (string * json)) : option json :=
  match kv with
  | [] => None
  | (k', v) :: kv' => if String.eqb k k' then Some v else dict_lookup k kv'
  end.

(** [x[k]] for a string [k] *)
Definition getitem_str (x : json) (k : string) : exc json :=
  match x with
  | JObj kv =>
      match dict_lookup k kv with
      | Some v => ret v
      | None => raise KeyError
      end
  | _ => raise TypeError
  end.

(** [x[i]] for a non-negative integer [i] *)
Definition getitem_int (x : json) (i : nat) : exc json :=
  match x with
  | JArr l =>
      match nth_error l i with
      | Some v => ret v
      | None => raise IndexError
      end
  | JStr s =>
      match String.get i s with
      | Some c => ret (JStr (String c EmptyString))
      | None => raise IndexError
      end
  | JObj _ => raise KeyError
  | _ => raise TypeError
  end.

(** The integer nearest to [n / d] for a positive [d], ties going to the
    even one. *)
Definition round_half_even (n d : Z) : Z :=
  let t := n / d in
  let r := n mod d in
  if 2 * r <? d then t
  else if d <? 2 * r then t + 1
  else if Z.even t then t else t + 1.

(** The double nearest to [q], ties going to the even significand (53 bits,
    the last one worth at least [2 ^ -1074]); [None] when that is beyond
    the largest double. *)
Definition round_double (q : Q) : option Q :=
  let n := Qnum q in
  let d := QDen q in
  if n =? 0 then Some 0%Q
  else
    let a := Z.abs n in
    let e0 := Z.log2 a - Z.log2 d in
    let below :=
      if 0 <=? e0 then a <? d * 2 ^ e0 else a * 2 ^ (- e0) <? d in
    let e := if below then e0 - 1 else e0 in
    let s := Z.max (e - 52) (-1074) in
    let m :=
      if 0 <=? s then round_half_even a (d * 2 ^ s)
      else round_half_even (a * 2 ^ (- s)) d in
    if (0 <=? s) && (2 ^ 1024 <=? m * 2 ^ s) then None
    else
      let m := if n <? 0 then - m else m in
      Some (Qred (if 0 <=? s then (m * 2 ^ s) # 1
                  else m # Z.to_pos (2 ^ (- s)))).

(** [x / y] on two numbers: the quotient rounded to a double, and an
    [OverflowError] when it is too large for one. *)
Definition float_div (x y : Q) : exc Q :=
  match round_double (x / y) with
  | Some r => ret r
  | None => raise OverflowError
  end.

(** [x / n] for a number [n]; [True] and [False] are the integers 1 and 0. *)
Definition truediv (x : json) (n : Q) : exc Q :=
  match x with
  | JNum q => float_div q n
  | JBool b => float_div (if b then 1 else 0) n
  | _ => raise TypeError
  end.

End Json.

(** ** Driving time lookup *)

Module Routing.
Import Json.

(** The body of the POST to the directions endpoint, with the key it is
    sent under. *)
Record route_request : Type := mkRequest {
  req_api_key : string;
  req_coordinates : list (list Q)
}.

(** A response of [requests.post]; [resp_json] is [None] when the body is
    not JSON, in which case [call.json()] raises a [ValueError]. *)
Record response : Type := mkResponse { resp_json : option json }.

Definition response_json (call : response) : exc json :=
  match resp_json call with
  | Some j => ret j
  | None => raise ValueError
  end.

Definition isinstance_KeyError (e : exn) : bool :=
  match e with
  | KeyError => true
  | _ => false
  end.

Definition isinstance_Exception (e : exn) : bool :=
  match e with
  | ValueError | KeyError | IndexError | TypeError | OverflowError
  | RequestException => true
  end.

(** [try: body except classes: return handler] *)
Definition try_except {A} (body : exc A) (catches : exn -> bool) (handler : A)
  : exc A :=
  match body with
  | inr a => ret a
  | inl e => if catches e then ret handler else raise e
  end.

(** [not s] for a string or [None] *)
Definition falsy_str (s : option string) : bool :=
  match s with
  | None => true
  | Some s => String.eqb s ""
  end.

Section WithProvider.

(** [OPENROUTESERVICE_API_KEY] and the routing service behind
    [requests.post]. *)
Variable OPENROUTESERVICE_API_KEY : option string.
Variable requests_post : route_request -> exc response.

(** [get_driving_time]: the value returned or the exception raised, and the
    requests posted to the provider, in order. *)
Definition get_driving_time (resort_lat resort_lon house_lat house_lon : Q)
  : exc (option Q) * list route_request :=
  match OPENROUTESERVICE_API_KEY with
  | None => (ret None, [])
  | Some key =>
      if String.eqb key "" then (ret None, [])
      else
        let coordinates :=
          mkRequest key [[house_lon; house_lat]; [resort_lon; resort_lat]] in
        (try_except
           (call <- requests_post coordinates ;;
            j <- response_json call ;;
            routes <- getitem_str j "routes" ;;
            route <- getitem_int routes 0 ;;
            summary <- getitem_str route "summary" ;;
            duration <- getitem_str summary "duration" ;;
            minutes <- truediv duration 60 ;;
            ret (Some minutes))
           (fun e => isinstance_KeyError e || isinstance_Exception e)
           None,
         [coordinates])
  end.

End WithProvider.

End Routing.

(** ** Polygon builder *)

Module Polygon.

Local Open Scope R_scope.

Record point : Type := mkPoint { lat : R; lon : R }.

(** [math.radians] *)
Definition radians (deg : R) : R := deg * (PI / 180).

Definition directions_deg : list R := [90; 45; 0; 315; 270; 225; 180; 135].

(** [make_polygon] over the real numbers its floats stand for. *)
Definition make_polygon (lat lon distance_miles : R) : list point :=
  let lat_rad := radians lat in
  let miles_per_lat := 69.0 in
  let miles_per_lon := 69.172 * cos lat_rad in
  fold_left
    (fun polygon angle =>
       let angle_rad := radians angle in
       let d_lat := (distance_miles * sin angle_rad) / miles_per_lat in
       let d_lon := (distance_miles * cos angle_rad) / miles_per_lon in
       let point := mkPoint (lat + d_lat) (lon + d_lon) in
       polygon ++ [point])
    directions_deg [].

End Polygon.

(** ** Aggregation across resorts *)

Module Aggregate.
Import Dates Routing.

(** One row of the resort table; [state] is [None] where the table has no
    value ([pd.isna]). *)
Record resort_row : Type := mkResort {
  row_resort : string;
  row_region : string;
  row_state : option string;
  row_latitude : Q;
  row_longitude : Q
}.

Record availability : Type := mkAvail { startDate : date; endDate : date }.

(** A row built by [explore_map_multiple] from one upstream home. *)
Record raw_listing : Type := mkRaw {
  id : option string;
  title : option string;
  destination : option string;
  lat : option Q;
  lon : option Q;
  availabilitiesWithoutBookedDates : list availability;
  maxGuestsLimit : option Z;
  petPreference : option string;
  petHostingDetails : option string;
  bedroomsCount : option Z;
  bathrooms : option Q;
  imageUrl : option string
}.

(** [homeId] is filled from the same upstream field as [id]. *)
Definition homeId (r : raw_listing) : option string := id r.

(** A row tagged with the resort whose search returned it. *)
Record tagged_listing : Type := mkTagged {
  raw : raw_listing;
  resort : string;
  state : option string;
  region : string;
  resort_lat : Q;
  resort_lon : Q
}.

(** A tagged row with its [driving_time_minutes]. *)
Record listing : Type := mkListing {
  tagged : tagged_listing;
  driving_time_minutes : option Q
}.

(** An element of a home's [resorts] list. *)
Record resort_entry : Type := mkEntry {
  entry_resort : string;
  entry_state : option string;
  entry_region : string;
  entry_driving_time_minutes : option Q
}.

(** A value of [homes_dict]: the copy of the first row seen for the home,
    with the two keys the aggregation adds. *)
Record home : Type := mkHome {
  base : listing;
  resorts : list resort_entry;
  min_driving_time : option Q
}.

(** [x < y] on driving times *)
Definition Qltb (x y : Q) : bool :=
  (Qnum x * QDen y <? Qnum y * QDen x)%Z.

(** [not x] for a number or [None] *)
Definition falsy_num (x : option Q) : bool :=
  match x with
  | None => true
  | Some q => (Qnum q =? 0)%Z
  end.

(** The sort key [x if x is not None else float('inf')]: [None] stands for
    infinity. *)
Definition key_ltb (a b : option Q) : bool :=
  match a, b with
  | Some x, Some y => Qltb x y
  | Some _, None => true
  | None, _ => false
  end.

Section StableSort.

Context {A : Type} (key : A -> option Q).

(** [x] comes from before every element of [l]: it stays in front of the
    first element that is not smaller than it. *)
Fixpoint insert_sorted (x : A) (l : list A) : list A :=
  match l with
  | [] => [x]
  | y :: l' =>
      if key_ltb (key y) (key x) then y :: insert_sorted x l'
      else x :: l
  end.

(** [l.sort(key=key)]: Python's sort is stable. *)
Definition sort_by (l : list A) : list A := fold_right insert_sorted [] l.

End StableSort.

(** The dictionary [homes_dict], in insertion order. *)
Definition homes : Type := list (string * home).

Fixpoint dict_get (k : string) (d : homes) : option home :=
  match d with
  | [] => None
  | (k', h) :: d' => if String.eqb k k' then Some h else dict_get k d'
  end.

(** In place change of the value under an existing key. *)
Fixpoint dict_modify (k : string) (f : home -> home) (d : homes) : homes :=
  match d with
  | [] => []
  | (k', h) :: d' =>
      if String.eqb k k' then (k', f h) :: d'
      else (k', h) :: dict_modify k f d'
  end.

(** [d[k] = h] for a key that is not in [d]. *)
Definition dict_add (k : string) (h : home) (d : homes) : homes :=
  d ++ [(k, h)].

Definition dict_values (d : homes) : list home := map snd d.

Definition entry_of (result : listing) : resort_entry :=
  mkEntry (resort (tagged result)) (state (tagged result))
          (region (tagged result)) (driving_time_minutes result).

(** The branch taken the first time a home is seen. *)
Definition first_seen (result : listing) : home :=
  mkHome result [entry_of result] (driving_time_minutes result).

(** The branch taken when the home is already in the dictionary. *)
Definition add_resort (result : listing) (h : home) : home :=
  let resorts' := resorts h ++ [entry_of result] in
  match driving_time_minutes result with
  | Some t =>
      match min_driving_time h with
      | None => mkHome (base h) resorts' (Some t)
      | Some current_min =>
          if Qltb t current_min then mkHome (base h) resorts' (Some t)
          else mkHome (base h) resorts' (Some current_min)
      end
  | None => mkHome (base h) resorts' (min_driving_time h)
  end.

(** One iteration of the deduplication loop. *)
Definition dedup_step (homes_dict : homes) (result : listing) : homes :=
  match id (raw (tagged result)) with
  | None => homes_dict
  | Some home_id =>
      if String.eqb home_id "" then homes_dict
      else
        match dict_get home_id homes_dict with
        | None => dict_add home_id (first_seen result) homes_dict
        | Some _ => dict_modify home_id (add_resort result) homes_dict
        end
  end.

Definition deduplicate (results_full : list listing) : homes :=
  fold_left dedup_step results_full [].

Definition sort_resorts (h : home) : home :=
  mkHome (base h) (sort_by entry_driving_time_minutes (resorts h))
         (min_driving_time h).

(** Lines 450 to 491: deduplication and the two sorts. *)
Definition aggregate (results_full : list listing) : list home :=
  let deduplicated_results := dict_values (deduplicate results_full) in
  let deduplicated_results := map sort_resorts deduplicated_results in
  sort_by min_driving_time deduplicated_results.

Section WithUpstream.

Variable OPENROUTESERVICE_API_KEY : option string.
Variable requests_post : route_request -> exc response.

(** The rows [explore_map_multiple] returns for a resort under the
    parameters of the request, or the exception it raises. *)
Variable explore_map_multiple : resort_row -> exc (list raw_listing).

(** The first loop: rows of every resort, tagged, in resort order. *)
Fixpoint collect (resort_df : list resort_row) : exc (list tagged_listing) :=
  match resort_df with
  | [] => ret []
  | row :: rest =>
      results <- explore_map_multiple row ;;
      let results_tagged :=
        map (fun result =>
               mkTagged result (row_resort row) (row_state row)
                        (row_region row) (row_latitude row)
                        (row_longitude row))
            results in
      results_rest <- collect rest ;;
      ret (results_tagged ++ results_rest)
  end.

(** The second loop, on one row. *)
Definition add_driving_time (result : tagged_listing) : exc listing :=
  if negb (falsy_num (lat (raw result))) && negb (falsy_num (lon (raw result)))
  then
    match lat (raw result), lon (raw result) with
    | Some house_lat, Some house_lon =>
        t <- fst (get_driving_time OPENROUTESERVICE_API_KEY requests_post
                    (resort_lat result) (resort_lon result)
                    house_lat house_lon) ;;
        ret (mkListing result t)
    | _, _ => ret (mkListing result None)
    end
  else ret (mkListing result None).

Fixpoint add_driving_times (results_full : list tagged_listing)
  : exc (list listing) :=
  match results_full with
  | [] => ret []
  | result :: rest =>
      r <- add_driving_time result ;;
      rs <- add_driving_times rest ;;
      ret (r :: rs)
  end.

(** [results_full] as the deduplication loop finds it. *)
Definition results_full (resort_df : list resort_row) : exc (list listing) :=
  collected <- collect resort_df ;;
  add_driving_times collected.

Definition resort_map_multiple (resort_df : list resort_row)
  : exc (list home) :=
  rows <- results_full resort_df ;;
  ret (aggregate rows).

End WithUpstream.

End Aggregate.

(** ** The result rows of the search route *)

Module Search.
Import Dates Routing Aggregate.

(** The [resorts] key of a result row: the home's list, or the one entry
    built from the row itself when that list is empty. *)
Inductive resorts_field : Type :=
| ResortsList (l : list resort_entry)
| SingleResort (resort : string) (driving_time_minutes : option Q).

Record search_result : Type := mkResult {
  sr_id : option string;
  sr_name : option string;
  sr_resort : string;
  sr_resorts : resorts_field;
  sr_distance : string;
  sr_driveTime : option Q;
  sr_bedrooms : option Z;
  sr_bathrooms : option Q;
  sr_maxGuests : option Z;
  sr_imageUrl : string;
  sr_lat : option Q;
  sr_lng : option Q;
  sr_availabilities : list availability;
  sr_petPreference : option string;
  sr_petHostingDetails : option string;
  sr_homeUrl : string
}.

Definition placeholder_image : string :=
  "https://images.unsplash.com/photo-1518780664697-55e3ad937233?w=800&q=80".

(** [str(n)] for a natural number *)
Definition decimal (n : Z) : string :=
  NilZero.string_of_uint (N.to_uint (Z.to_N n)).

(** The number of tenths nearest to [|q|], ties to the even one. *)
Definition round_tenths (q : Q) : Z :=
  let n := Z.abs (Qnum q) * 10 in
  let d := QDen q in
  let t := n / d in
  let r := n mod d in
  if 2 * r <? d then t
  else if d <? 2 * r then t + 1
  else if Z.even t then t else t + 1.

(** [f"{q:.1f}"] *)
Definition format_1f (q : Q) : string :=
  let t := round_tenths q in
  ((if (Qnum q <? 0)%Z then "-" else "")
   ++ decimal (t / 10)%Z ++ "." ++ String (digit t) EmptyString)%string.

(** [str(x)] for a string or [None] *)
Definition str_of (x : option string) : string :=
  match x with
  | Some s => s
  | None => "None"
  end.

(** [avail_start <= search_end and avail_end >= search_start] *)
Definition overlaps (search_start search_end : date) (avail : availability)
  : bool :=
  date_leb (startDate avail) search_end
  && date_geb (endDate avail) search_start.

(** The row appended to [formatted_results] for the home [r]. *)
Definition format_result (r : home) (matching_availabilities : list availability)
  : search_result :=
  let row := raw (tagged (base r)) in
  let resorts_list :=
    match resorts r with
    | [] => SingleResort (resort (tagged (base r)))
                         (driving_time_minutes (base r))
    | l => ResortsList l
    end in
  mkResult
    (homeId row)
    (title row)
    (resort (tagged (base r)))
    resorts_list
    (match driving_time_minutes (base r) with
     | Some t =>
         if falsy_num (Some t) then "N/A"
         else (format_1f t ++ " min")%string
     | None => "N/A"
     end)
    (driving_time_minutes (base r))
    (bedroomsCount row)
    (bathrooms row)
    (maxGuestsLimit row)
    (if falsy_str (imageUrl row) then placeholder_image
     else str_of (imageUrl row))
    (lat row)
    (lon row)
    matching_availabilities
    (petPreference row)
    (petHostingDetails row)
    ("https://livekindred.com/home/" ++ str_of (homeId row))%string.

(** The loop over [results] that fills [formatted_results]. *)
Fixpoint format_results (results : list home) (search_start search_end : date)
  : list search_result :=
  match results with
  | [] => []
  | r :: rest =>
      let availabilities := availabilitiesWithoutBookedDates
                              (raw (tagged (base r))) in
      let matching_availabilities :=
        filter (overlaps search_start search_end) availabilities in
      if (0 <? List.length matching_availabilities)%nat then
        format_result r matching_availabilities
        :: format_results rest search_start search_end
      else format_results rest search_start search_end
  end.

Section WithUpstream.

Variable OPENROUTESERVICE_API_KEY : option string.
Variable requests_post : route_request -> exc response.
Variable explore_map_multiple : resort_row -> exc (list raw_listing).

(** The search route from the filtered, non-empty resort table on. *)
Definition search (resort_df : list resort_row) (start_date end_date : date)
  : exc (list search_result) :=
  results <- resort_map_multiple OPENROUTESERVICE_API_KEY requests_post
               explore_map_multiple resort_df ;;
  search_start <- strptime start_date ;;
  search_end <- strptime end_date ;;
  ret (format_results results search_start search_end).

End WithUpstream.

End Search.

(** ** Bearer tokens *)

Module Token.
Import Routing Search.

(** [_get_token_from_request] on the [Authorization] header of the
    request, [None] when the request has none. *)
Definition get_token_from_request (authorization : option string)
  : option string :=
  let auth_header :=
    match authorization with
    | Some h => h
    | None => ""%string
    end in
  if prefix "Bearer " auth_header
  then Some (substring 7 (String.length auth_header - 7) auth_header)
  else None.

(** [_build_headers]: the token of the call, or the one of [token_box] when
    the call has none. *)
Definition build_headers (token : option string)
  (token_box_access : option string) : list (string * string) :=
  let auth_token := if falsy_str token then token_box_access else token in
  [("accept", "*/*");
   ("content-type", "application/json");
   ("apollographql-client-name", "Web");
   ("apollographql-client-version", "1.929.3");
   ("authorization", "Bearer " ++ str_of auth_token);
   ("origin", "https://livekindred.com");
   ("referer", "https://livekindred.com/");
   ("x-locale", "en")]%string.

(** [headers[name]] *)
Fixpoint header (name : string) (headers : list (string * string))
  : option string :=
  match headers with
  | [] => None
  | (n, v) :: rest => if String.eqb name n then Some v else header name rest
  end.

End Token.

(** ** The GraphQL transport *)

Module Http.
Import Json Token.

(** The exceptions of the transport: the built-in ones, and those the
    built-in type has no constructor for. [RuntimeError] carries the
    [errors] of the response it reports. *)
Inductive gql_exn : Type :=
| RuntimeError (errors : json)
| HTTPError (status : Z)
| AttributeError
| Builtin (e : exn).

Definition gexc (A : Type) : Type := (gql_exn + A)%type.

(** An exception of the built-in kind, raised inside the transport. *)
Definition lift {A} (m : exc A) : gexc A :=
  match m with
  | inl e => inl (Builtin e)
  | inr a => inr a
  end.

(** A response of [requests.post]: its status and its body, [None] when
    the body is not JSON. *)
Record http_response : Type := mkHttp {
  status_code : Z;
  body : option json
}.

(** The truth value of a Python value read from JSON. *)
Definition truthy (j : json) : bool :=
  match j with
  | JNull => false
  | JBool b => b
  | JNum q => negb (Qnum q =? 0)
  | JStr s => negb (String.eqb s "")
  | JArr l => match l with [] => false | _ :: _ => true end
  | JObj kv => match kv with [] => false | _ :: _ => true end
  end.

(** [d.get("errors")]: [None] without the key, and an [AttributeError] on
    a value that is not a dictionary. *)
Definition get_errors (d : json) : gexc json :=
  match d with
  | JObj kv =>
      match dict_lookup "errors" kv with
      | Some v => inr v
      | None => inr JNull
      end
  | _ => inl AttributeError
  end.

(** The inner function [parse] of [post_graphql]: a body that is not JSON
    gives [(None, None)]. *)
Definition parse (resp : http_response) : gexc (option json * json) :=
  match body resp with
  | None => inr (None, JNull)
  | Some d =>
      match get_errors d with
      | inl e => inl e
      | inr errs => inr (Some d, errs)
      end
  end.

(** [r.raise_for_status()] *)
Definition raise_for_status (r : http_response) : gexc unit :=
  if (400 <=? status_code r) && (status_code r <? 600)
  then inl (HTTPError (status_code r))
  else inr tt.

(** [post_graphql] from the response of [requests.post] on. *)
Definition post_graphql_response (r : http_response) : gexc json :=
  match parse r with
  | inl e => inl e
  | inr (data, errs) =>
      match (if 400 <=? status_code r
             then (if truthy errs then inl (RuntimeError errs)
                   else raise_for_status r)
             else inr tt) with
      | inl e => inl e
      | inr _ =>
          if truthy errs then inl (RuntimeError errs)
          else
            match data with
            | None => inl (Builtin TypeError)
            | Some d => lift (getitem_str d "data")
            end
      end
  end.

(** ["errors" in j] *)
Definition contains_errors (j : json) : exc bool :=
  match j with
  | JObj kv =>
      ret match dict_lookup "errors" kv with
          | Some _ => true
          | None => false
          end
  | JArr l =>
      ret (existsb (fun x => match x with
                             | JStr s => String.eqb s "errors"
                             | _ => false
                             end) l)
  | JStr s =>
      ret match index 0 "errors" s with
          | Some _ => true
          | None => false
          end
  | _ => raise TypeError
  end.

(** [gql_noauth] from the response of [requests.post] on. *)
Definition gql_noauth_response (r : http_response) : gexc json :=
  match raise_for_status r with
  | inl e => inl e
  | inr _ =>
      match body r with
      | None => inl (Builtin ValueError)
      | Some j =>
          match contains_errors j with
          | inl e => inl (Builtin e)
          | inr true =>
              match getitem_str j "errors" with
              | inl e => inl (Builtin e)
              | inr errs => inl (RuntimeError errs)
              end
          | inr false => lift (getitem_str j "data")
          end
      end
  end.

Section WithTransport.

(** What is posted: the operation with its variables, under the headers
    of the call. *)
Context {V : Type}.

Record graphql_request : Type := mkGraphql {
  operationName : string;
  variables : V;
  headers : list (string * string)
}.

(** [requests.post]: a response, or the exception of a failed
    connection. *)
Variable requests_post : graphql_request -> exc http_response.

(** The access token [token_box] holds. *)
Variable token_box_access : option string.

Definition noauth_headers : list (string * string) :=
  [("content-type", "application/json");
   ("origin", "https://livekindred.com");
   ("referer", "https://livekindred.com/");
   ("apollographql-client-name", "Web");
   ("apollographql-client-version", "1.929.3");
   ("x-locale", "en")]%string.

Definition post_graphql (operation_name : string) (vars : V)
  (token : option string) : gexc json :=
  match requests_post (mkGraphql operation_name vars
                                 (build_headers token token_box_access)) with
  | inl e => inl (Builtin e)
  | inr r => post_graphql_response r
  end.

Definition gql_noauth (operation_name : string) (vars : V) : gexc json :=
  match requests_post (mkGraphql operation_name vars noauth_headers) with
  | inl e => inl (Builtin e)
  | inr r => gql_noauth_response r
  end.

End WithTransport.

End Http.

(** ** The upstream search near one resort *)

Module Upstream.
Import Dates Http Aggregate.

(** The variables of one [exploreList] query. *)
Record filter_input : Type := mkFilterInput {
  amenityFilters : list string;
  bedTypeFilters : list string;
  compositeFilters : list string;
  petPreferences : list string
}.

Record search_filter : Type := mkFilter {
  tripLengthsV2 : list string;
  minimumNights : option Z;
  dateRanges : list (string * string);
  includeCloseDates : bool;
  isFavoriteHomesOnly : bool;
  onboardingSort : bool;
  polygon : list Polygon.point;
  matchTypes : list string;
  minBedrooms : Z;
  minBathrooms : Z;
  minBeds : Z;
  totalGuests : Z;
  filterInput : filter_input
}.

Record pagination : Type := mkPagination { page : nat; pageSize : Z }.

Record variables : Type := mkVariables {
  filter : search_filter;
  pagination_of : pagination;
  sortedAt : string;
  width : Z;
  avatarWidth : Z
}.

(** [explore_map_once]; [now] is the clock reading it stamps the query
    with. The key [minimumNights] is [None] when the dictionary has no such
    key. *)
Definition explore_map_once (polygon : list Polygon.point)
  (date_range : list (string * string)) (date_type : string) (min_nights : Z)
  (page : nat) (page_size : Z) (total_guests : Z) (pets_allowed : bool)
  (now : string) : variables :=
  let trip_type :=
    if String.eqb date_type "exact" then "EXACT_DATES"%string
    else "MINIMUM_NIGHTS"%string in
  let pet_preferences :=
    if pets_allowed then ["YES"; "MAYBE"]%string else [] in
  mkVariables
    (mkFilter
       [trip_type]
       (if String.eqb date_type "flexible" then Some min_nights else None)
       date_range
       false false false
       polygon
       ["SWAP"; "AVAILABILITY"]%string
       0 0 0
       total_guests
       (mkFilterInput [] [] [] pet_preferences))
    (mkPagination page page_size)
    now
    720
    90.

(** [vars_page["sortedAt"] = sorted_at] *)
Definition set_sortedAt (v : variables) (sorted_at : string) : variables :=
  mkVariables (filter v) (pagination_of v) sorted_at (width v) (avatarWidth v).

(** A home as the upstream service sends it. *)
Record destination_ref : Type := mkDestination { dest_name : option string }.

Record media_item : Type := mkMedia { thumbnailUrl : option string }.

Record upstream_home : Type := mkUpstreamHome {
  h_id : option string;
  h_title : option string;
  h_destination : option destination_ref;
  h_media : list media_item;
  h_lat : option Q;
  h_lon : option Q;
  h_availabilities : list availability;
  h_maxGuestsLimit : option Z;
  h_petPreference : option string;
  h_petHostingDetails : option string;
  h_bedroomsCount : option Z;
  h_bathrooms : option Q
}.

(** The value of [getHomesWithSearchCriteria] for one page. *)
Record page_result : Type := mkPage {
  homeRecs : list upstream_home;
  hasMore : bool
}.

(** [x == "NO"] for a string or [None] *)
Definition is_no (x : option string) : bool :=
  match x with
  | Some s => String.eqb s "NO"
  | None => false
  end.

(** The row appended for the home [h]. *)
Definition row_of_home (h : upstream_home) : raw_listing :=
  let image_url :=
    match h_media h with
    | m :: _ => thumbnailUrl m
    | [] => None
    end in
  mkRaw (h_id h)
        (h_title h)
        (match h_destination h with
         | Some d => dest_name d
         | None => None
         end)
        (h_lat h) (h_lon h)
        (h_availabilities h)
        (h_maxGuestsLimit h)
        (h_petPreference h)
        (h_petHostingDetails h)
        (h_bedroomsCount h)
        (h_bathrooms h)
        image_url.

(** The [for rec in res.get("homeRecs", [])] loop: the rows of one page. *)
Fixpoint rows_of_page (pets_allowed : bool) (recs : list upstream_home)
  : list raw_listing :=
  match recs with
  | [] => []
  | h :: rest =>
      if pets_allowed
         && (is_no (h_petPreference h) || is_no (h_petHostingDetails h))
      then rows_of_page pets_allowed rest
      else row_of_home h :: rows_of_page pets_allowed rest
  end.

Section WithTransport.

(** The decoded answer of [post_graphql] to an [exploreList] query, or the
    exception it raises. *)
Variable post_graphql : variables -> gexc page_result.

(** The clock readings: at the start of the search, and when the variables
    of each page are built. *)
Variable sorted_at : string.
Variable clock : nat -> string.

Variables (polygon : list Polygon.point)
          (formatted_date_range : list (string * string))
          (date_type : string) (min_nights page_size total_guests : Z)
          (pets_allowed : bool).

(** The variables posted for the page [page]. *)
Definition vars_page (page : nat) : variables :=
  set_sortedAt
    (explore_map_once polygon formatted_date_range date_type min_nights
                      page page_size total_guests pets_allowed (clock page))
    sorted_at.

(** The [while True] loop, from the page [page] on: the rows returned or
    the exception raised, with the queries posted; [None] when the fuel
    runs out, the upstream service promising more pages for ever. *)
Fixpoint explore_loop (fuel : nat) (page : nat) (all_rows : list raw_listing)
  (posted : list variables)
  : option (gexc (list raw_listing) * list variables) :=
  match fuel with
  | O => None
  | S fuel' =>
      match post_graphql (vars_page page) with
      | inl e => Some (inl e, posted ++ [vars_page page])
      | inr res =>
          let all_rows := all_rows ++ rows_of_page pets_allowed (homeRecs res) in
          if hasMore res
          then explore_loop fuel' (S page) all_rows
                            (posted ++ [vars_page page])
          else Some (inr all_rows, posted ++ [vars_page page])
      end
  end.

End WithTransport.

(** [explore_map_multiple] *)
Definition explore_map_multiple
  (post_graphql : variables -> gexc page_result)
  (sorted_at : string) (clock : nat -> string) (fuel : nat)
  (lat lon distance_miles : R) (start_date end_date : date)
  (date_type : string) (min_nights page_size total_guests : Z)
  (pets_allowed : bool)
  : option (gexc (list raw_listing) * list variables) :=
  let polygon := Polygon.make_polygon lat lon distance_miles in
  match Dates.formatted_date_range
          start_date end_date
          (if String.eqb date_type "flexible" then flexible else exact) with
  | None => None
  | Some (inl e) => Some (inl (Builtin e), [])
  | Some (inr formatted_date_range) =>
      explore_loop post_graphql sorted_at clock polygon formatted_date_range
                   date_type min_nights page_size total_guests pets_allowed
                   fuel 0 [] []
  end.

End Upstream.

(** ** The search route *)

Module Route.
Import Dates Routing Aggregate Search Token.

(** A row of the resort table with the columns the filters read; a column
    is [None] where the table has no value. *)
Record location : Type := mkLocation {
  loc_row : resort_row;
  skiable_acres : option Q;
  vertical_drop : option Q;
  annual_snowfall : option Q
}.

(** The JSON body of a search request; a key is [None] when the body has
    not got it, and a date is [None] also when it is the empty string. *)
Record search_request : Type := mkSearchRequest {
  req_startDate : option date;
  req_endDate : option date;
  req_regions : list string;
  req_resorts : list string;
  req_mileRange : option Q;
  req_dateType : option string;
  req_minNights : option Z;
  req_minSkiableAcres : option Q;
  req_minVerticalDrop : option Q;
  req_minAnnualSnowfall : option Q;
  req_numberOfPeople : option Z;
  req_petsAllowed : option bool
}.

(** The arguments [resort_map_multiple] is called with, the table aside. *)
Record search_params : Type := mkParams {
  date_range : date * date;
  date_type : string;
  mile_range : Q;
  page_size : Z;
  min_nights : Z;
  token : string;
  total_guests : Z;
  pets_allowed : bool
}.

Inductive error_message : Type :=
| AuthenticationRequired
| DatesRequired
| Raised (e : exn).

Inductive reply_body : Type :=
| Results (results : list search_result)
| Error (message : error_message).

Definition default {A} (x : option A) (d : A) : A :=
  match x with
  | Some a => a
  | None => d
  end.

(** [column.isin(values)] *)
Definition isin (x : string) (values : list string) : bool :=
  existsb (String.eqb x) values.

(** [column >= threshold]: false where the table has no value. *)
Definition at_least (x : option Q) (threshold : Q) : bool :=
  match x with
  | Some v => Qle_bool threshold v
  | None => false
  end.

(** One of the three threshold filters: applied when the threshold is given
    and positive. *)
Definition filter_threshold (threshold : option Q)
  (column : location -> option Q) (resort_df : list location)
  : list location :=
  match threshold with
  | Some m =>
      if Qle_bool m 0 then resort_df
      else List.filter (fun l => at_least (column l) m) resort_df
  | None => resort_df
  end.

(** The resorts to search, filtered from the table in five steps. *)
Definition filter_locations (data : search_request)
  (locations : list location) : list location :=
  let resort_df := locations in
  let resort_df :=
    match req_regions data with
    | [] => resort_df
    | regions =>
        List.filter (fun l => isin (row_region (loc_row l)) regions) resort_df
    end in
  let resort_df :=
    match req_resorts data with
    | [] => resort_df
    | resorts =>
        List.filter (fun l => isin (row_resort (loc_row l)) resorts) resort_df
    end in
  let resort_df :=
    filter_threshold (req_minSkiableAcres data) skiable_acres resort_df in
  let resort_df :=
    filter_threshold (req_minVerticalDrop data) vertical_drop resort_df in
  filter_threshold (req_minAnnualSnowfall data) annual_snowfall resort_df.

Section WithUpstream.

Variable OPENROUTESERVICE_API_KEY : option string.
Variable requests_post : route_request -> exc response.

(** What [explore_map_multiple] returns near a resort under the arguments
    of a call. *)
Variable explore_map_multiple :
  search_params -> resort_row -> exc (list raw_listing).

(** The table [locations]. *)
Variable locations : list location.

(** The route [/api/search]: the status and the body of its reply to a
    request with the given [Authorization] header and JSON body. *)
Definition search_route (authorization : option string)
  (data : search_request) : Z * reply_body :=
  match get_token_from_request authorization with
  | None => (401, Error AuthenticationRequired)
  | Some token =>
      if String.eqb token "" then (401, Error AuthenticationRequired)
      else
        match req_startDate data, req_endDate data with
        | Some start_date, Some end_date =>
            match filter_locations data locations with
            | [] => (200, Results [])
            | resort_df =>
                let params :=
                  mkParams (start_date, end_date)
                           (default (req_dateType data) "flexible"%string)
                           (default (req_mileRange data) 35%Q)
                           50
                           (default (req_minNights data) 0)
                           token
                           (default (req_numberOfPeople data) 0)
                           (default (req_petsAllowed data) false) in
                match search OPENROUTESERVICE_API_KEY requests_post
                             (explore_map_multiple params)
                             (map loc_row resort_df)
                             start_date end_date with
                | inr formatted_results => (200, Results formatted_results)
                | inl e => (500, Error (Raised e))
                end
            end
        | _, _ => (400, Error DatesRequired)
        end
  end.

End WithUpstream.

End Route.

(** * Specifications *)

Module PartitionSpec.
Import Dates.

(** The windows of the monthly walk from [c] towards [e], as dates. *)
Inductive walk (e : date) : date -> list (date * date) -> Prop :=
| walk_done c : date_ltb c e = false -> walk e c []
| walk_step c n ws :
    date_ltb c e = true ->
    add_one_month c = inr n ->
    walk e (date_min n e) ws ->
    walk e c ((c, date_min n e) :: ws).

Definition iso_window (w : date * date) : string * string :=
  to_iso_date_range_dt (fst w) (snd w).

(** The flexible partition of [[s, e]] as the specification words it: the
    windows are contiguous (each start is the end before it, the first is
    [s]), the last end is [e], no window is empty or runs into a later one,
    and each end is the earlier of the start plus one month and [e]. *)
Definition flexible_partition (s e : date) (ws : list (date * date)) : Prop :=
  ws <> []
  /\ map fst ws = s :: removelast (map snd ws)
  /\ last (map snd ws) s = e
  /\ Forall (fun w =>
               date_ltb (fst w) (snd w) = true
               /\ exists n, add_one_month (fst w) = inr n
                            /\ snd w = date_min n e) ws
  /\ ForallOrdPairs (fun w1 w2 => date_leb (snd w1) (fst w2) = true) ws.

(** Date partitioning "fails": the call raises. *)
Definition partition_fails (out : option (exc (list (string * string))))
  : Prop :=
  exists e, out = Some (inl e).

End PartitionSpec.

Module RoutingSpec.
Import Json Routing.

(** The value under [k] when [j] is an object that has the key. *)
Definition field (k : string) (j : json) : option json :=
  match j with
  | JObj kv => dict_lookup k kv
  | _ => None
  end.

(** The first route of a directions response, when it lists one. *)
Definition first_route (j : json) : option json :=
  match field "routes" j with
  | Some (JArr (route :: _)) => Some route
  | _ => None
  end.

(** The duration in seconds of the first route, when the response has the
    expected shape; a JSON boolean is a number to Python. *)
Definition duration_seconds (j : json) : option Q :=
  match first_route j with
  | Some route =>
      match field "summary" route with
      | Some summary =>
          match field "duration" summary with
          | Some (JNum q) => Some q
          | Some (JBool b) => Some (if b then 1 else 0)%Q
          | _ => None
          end
      | None => None
      end
  | None => None
  end.

(** The minutes of a duration in seconds: the double nearest to the
    sixtieth, unknown when there is no duration or none that fits a
    double. *)
Definition minutes_of (seconds : option Q) : option Q :=
  match seconds with
  | Some d => round_double (d / 60)
  | None => None
  end.

(** What a lookup that reaches the provider returns, said without
    exceptions. *)
Definition lookup_answer (post : route_request -> exc response)
  (req : route_request) : option Q :=
  match post req with
  | inl _ => None
  | inr call =>
      match resp_json call with
      | None => None
      | Some j => minutes_of (duration_seconds j)
      end
  end.

End RoutingSpec.

Module PolygonSpec.
Import Polygon.
Local Open Scope R_scope.

(** The vertex the specification gives for the angle [a], in degrees. *)
Definition vertex (lat lon radius_miles a : R) : point :=
  mkPoint (lat + radius_miles * sin (radians a) / 69.0)
          (lon + radius_miles * cos (radians a)
                 / (69.172 * cos (radians lat))).

End PolygonSpec.

Module AggregateSpec.
Import Aggregate.

Definition listing_id (r : listing) : option string := id (raw (tagged r)).

Definition home_id (h : home) : option string :=
  homeId (raw (tagged (base h))).

(** The row carries the home id [k]. *)
Definition has_id (k : string) (r : listing) : bool :=
  match listing_id r with
  | Some k' => String.eqb k k'
  | None => false
  end.

(** The rows of the home [k], in the order they were collected. *)
Definition rows_of (k : string) (rows : list listing) : list listing :=
  filter (has_id k) rows.

(** The row has a home id: it is neither missing, null nor empty. *)
Definition has_home_id (r : listing) : bool :=
  match listing_id r with
  | Some k => negb (String.eqb k "")
  | None => false
  end.

(** Driving times in ascending order, an unknown one counting as
    infinity. *)
Definition time_le (a b : option Q) : Prop :=
  match a, b with
  | _, None => True
  | None, Some _ => False
  | Some x, Some y => (x <= y)%Q
  end.

(** Ascending order of the sort key [key]. *)
Definition key_le {A : Type} (key : A -> option Q) (x y : A) : Prop :=
  time_le (key x) (key y).

(** [m] is the least of the known times of [ts], and is unknown when none
    of them is known. *)
Definition min_of_known (m : option Q) (ts : list (option Q)) : Prop :=
  match m with
  | Some x => In (Some x) ts /\ forall y, In (Some y) ts -> (x <= y)%Q
  | None => forall t, In t ts -> t = None
  end.

(** The home [h] is what the rows of the home [k] amount to: its base is
    the first of them, and each of them gave one entry of [resorts]. *)
Definition home_built_from (k : string) (rows : list listing) (h : home)
  : Prop :=
  exists rs,
    rows_of k rows = base h :: rs
    /\ resorts h = map entry_of (base h :: rs)
    /\ min_of_known (min_driving_time h)
                    (map driving_time_minutes (base h :: rs)).

(** The invariant of the deduplication loop, after the rows [rows]. *)
Definition dedup_inv (rows : list listing) (d : homes) : Prop :=
  NoDup (map fst d)
  /\ (forall k h, dict_get k d = Some h ->
                  k <> ""%string /\ home_built_from k rows h)
  /\ (forall r k, In r rows -> listing_id r = Some k -> k <> ""%string ->
                  In k (map fst d)).


End AggregateSpec.

Module SearchSpec.
Import Dates Aggregate Search.

(** The availability windows of the home [r] that overlap the requested
    range. *)
Definition matching (search_start search_end : date) (r : home)
  : list availability :=
  filter (overlaps search_start search_end)
         (availabilitiesWithoutBookedDates (raw (tagged (base r)))).

(** The distance string of a driving time, as the specification has it. *)
Definition distance_of (t : option Q) : string :=
  match t with
  | Some minutes => (format_1f minutes ++ " min")%string
  | None => "N/A"%string
  end.

End SearchSpec.

(** * A search near two resorts *)

Module Example.
Import Dates Json Routing Aggregate.

Definition aspen : resort_row :=
  mkResort "Aspen" "Rockies" (Some "Colorado"%string) (3919 # 100) (-10682 # 100).

Definition vail : resort_row :=
  mkResort "Vail" "Rockies" (Some "Colorado"%string) (3964 # 100) (-10637 # 100).

(** A home within reach of both resorts, free from 1 to 12 January. *)
Definition chalet : raw_listing :=
  mkRaw (Some "h1"%string) (Some "Chalet"%string) (Some "Colorado"%string)
        (Some (394 # 10)) (Some (-1066 # 10))
        [mkAvail (mkDate 2025 1 1) (mkDate 2025 1 12)]
        (Some 6) (Some "YES"%string) None (Some 3) (Some 2%Q) None.

(** A home near Vail only, free from 21 to 25 January, without
    coordinates. *)
Definition cabin : raw_listing :=
  mkRaw (Some "h2"%string) (Some "Cabin"%string) (Some "Colorado"%string)
        None None
        [mkAvail (mkDate 2025 1 21) (mkDate 2025 1 25)]
        (Some 4) (Some "NO"%string) None (Some 2) (Some 1%Q)
        (Some "https://img.example/cabin.jpg"%string).

(** A row the upstream service sent without an id. *)
Definition orphan : raw_listing :=
  mkRaw None (Some "Orphan"%string) None None None [] None None None None
        None None.

Definition found (row : resort_row) : list raw_listing :=
  if String.eqb (row_resort row) "Aspen" then [chalet; orphan]
  else [chalet; cabin].

Definition explore (row : resort_row) : exc (list raw_listing) :=
  ret (found row).

Definition directions (seconds : Q) : response :=
  mkResponse
    (Some (JObj [("routes"%string,
                  JArr [JObj [("summary"%string,
                               JObj [("duration"%string, JNum seconds)])]])])).

(** A provider that knows 12 minutes to Aspen and 47 minutes to Vail. *)
Definition post (req : route_request) : exc response :=
  match req_coordinates req with
  | [_; [_; resort_lat]] =>
      if Qeq_bool resort_lat (row_latitude aspen) then ret (directions 720)
      else ret (directions 2820)
  | _ => raise RequestException
  end.

Definition api_key : option string := Some "secret"%string.

(** The homes the search near Aspen and Vail returns, and the first of
    them. *)
Definition homes_found : list home :=
  Eval vm_compute in
    match resort_map_multiple api_key post explore [aspen; vail] with
    | inr out => out
    | inl _ => []
    end.

Definition chalet_home : home :=
  Eval vm_compute in
    match homes_found with
    | h :: _ => h
    | [] => first_seen (mkListing (mkTagged orphan "" None "" 0 0) None)
    end.

(** The same search with Vail first: the chalet is first seen near Vail. *)
Definition homes_found_vail_first : list home :=
  Eval vm_compute in
    match resort_map_multiple api_key post explore [vail; aspen] with
    | inr out => out
    | inl _ => []
    end.

Definition chalet_seen_near_vail : home :=
  Eval vm_compute in
    match homes_found_vail_first with
    | h :: _ => h
    | [] => first_seen (mkListing (mkTagged orphan "" None "" 0 0) None)
    end.

End Example.

(** * Specifications of the further properties *)

Module MoreSpec.
Import Aggregate AggregateSpec.

(** Two sort keys that neither is smaller than the other. *)
Definition same_key (a b : option Q) : bool :=
  negb (key_ltb a b) && negb (key_ltb b a).

(** Two driving times that are the same number, or both unknown. *)
Definition time_eq (a b : option Q) : Prop :=
  match a, b with
  | Some x, Some y => (x == y)%Q
  | None, None => True
  | _, _ => False
  end.

(** The number of [resorts] entries of a list of homes. *)
Definition total_entries (l : list home) : nat :=
  list_sum (map (fun h => List.length (resorts h)) l).

End MoreSpec.

Module TransportSpec.
Import Json Http Upstream.

(** The value of the [errors] key of a JSON object, [None] without it. *)
Definition errors_of (kv : list (string * json)) : json :=
  match dict_lookup "errors" kv with
  | Some v => v
  | None => JNull
  end.

(** The status is not one [raise_for_status] raises on. *)
Definition status_ok (status : Z) : Prop := status < 400 \/ 600 <= status.

(** The pages a search fetches from the page [p] on: each one but the last
    says there are more. *)
Inductive pages_from (post_graphql : variables -> gexc page_result)
  (vars : nat -> variables) : nat -> list page_result -> Prop :=
| last_page p res :
    post_graphql (vars p) = inr res ->
    hasMore res = false ->
    pages_from post_graphql vars p [res]
| more_pages p res rest :
    post_graphql (vars p) = inr res ->
    hasMore res = true ->
    pages_from post_graphql vars (S p) rest ->
    pages_from post_graphql vars p (res :: rest).

End TransportSpec.

Module RouteSpec.
Import Aggregate Route.

(** The table value [x] meets the threshold [t]: the threshold is absent
    or not positive, or the value is known and at least the threshold. *)
Definition meets (t : option Q) (x : option Q) : Prop :=
  match t with
  | Some m => (m <= 0)%Q \/ exists v, x = Some v /\ (m <= v)%Q
  | None => True
  end.

(** The resort [l] passes every filter of the request [data]. *)
Definition passes (data : search_request) (l : location) : Prop :=
  (req_regions data = [] \/ In (row_region (loc_row l)) (req_regions data))
  /\ (req_resorts data = [] \/ In (row_resort (loc_row l)) (req_resorts data))
  /\ meets (req_minSkiableAcres data) (skiable_acres l)
  /\ meets (req_minVerticalDrop data) (vertical_drop l)
  /\ meets (req_minAnnualSnowfall data) (annual_snowfall l).

(** [small] is [big] with some elements left out, the order kept. *)
Inductive sublist {A : Type} : list A -> list A -> Prop :=
| sublist_nil : sublist [] []
| sublist_skip x small big : sublist small big -> sublist small (x :: big)
| sublist_keep x small big : sublist small big -> sublist (x :: small) (x :: big).

End RouteSpec.

(** * An upstream service with two pages *)

Module ExampleUpstream.
Import Dates Http Aggregate Upstream.

Definition lodge : upstream_home :=
  mkUpstreamHome (Some "u1"%string) (Some "Lodge"%string)
                 (Some (mkDestination (Some "Utah"%string)))
                 [mkMedia (Some "https://img.example/lodge.jpg"%string);
                  mkMedia None]
                 (Some (406 # 10)) (Some (-1115 # 10))
                 [mkAvail (mkDate 2025 2 1) (mkDate 2025 2 8)]
                 (Some 8) (Some "YES"%string) None (Some 4) (Some 3%Q).

(** A home that takes no pets. *)
Definition studio : upstream_home :=
  mkUpstreamHome (Some "u2"%string) (Some "Studio"%string) None []
                 None None [] (Some 2) (Some "NO"%string) None
                 (Some 1) (Some 1%Q).

(** A home whose hosting details rule pets out. *)
Definition loft : upstream_home :=
  mkUpstreamHome (Some "u3"%string) (Some "Loft"%string) None []
                 None None [] (Some 2) (Some "MAYBE"%string)
                 (Some "NO"%string) (Some 1) (Some 1%Q).

Definition first_page : page_result := mkPage [lodge; studio] true.
Definition second_page : page_result := mkPage [loft] false.

(** The service answers the pages 0 and 1 and fails on any other. *)
Definition post_graphql (v : variables) : gexc page_result :=
  match page (pagination_of v) with
  | O => inr first_page
  | S O => inr second_page
  | _ => inl (HTTPError 500)
  end.

Definition clock (p : nat) : string := "2025-01-01T00:00:00.000Z".

End ExampleUpstream.

(** * A request to the search route *)

Module ExampleRoute.
Import Dates Aggregate Search Route.

(** Aspen and Vail with their sizes, and a resort of unknown size. *)
Definition table : list location :=
  [mkLocation Example.aspen (Some 5500%Q) (Some 4400%Q) (Some 300%Q);
   mkLocation Example.vail (Some 5300%Q) (Some 3450%Q) (Some 350%Q);
   mkLocation (mkResort "Nowhere" "Rockies" None 0 0) None None None].

(** A search in the Rockies for resorts of 5400 acres at least. *)
Definition request : search_request :=
  mkSearchRequest (Some (mkDate 2025 1 10)) (Some (mkDate 2025 1 20))
                  ["Rockies"%string] [] None None None
                  (Some 5400%Q) None None None None.

Definition explore (params : search_params) (row : resort_row)
  : exc (list raw_listing) :=
  Example.explore row.

Definition rows_replied : list search_result :=
  Eval vm_compute in
    match search_route Example.api_key Example.post explore table
                       (Some "Bearer token"%string) request with
    | (_, Results out) => out
    | (_, Error _) => []
    end.

Definition first_row : search_result :=
  Eval vm_compute in
    match rows_replied with
    | sr :: _ => sr
    | [] => format_result Example.chalet_home []
    end.

End ExampleRoute.

(** * Properties *)

(** ** The date range partitioner *)

Section DatesFacts.
Import Dates PartitionSpec.

Ltac date_bools :=
  unfold date_min, date_geb, date_leb, date_ltb, valid_date, MINYEAR, MAXYEAR in *;
  repeat match goal with
         | d : date |- _ => destruct d
         end;
  cbn [year month day] in *;
  repeat match goal with
         | H : context [if ?b then _ else _] |- _ => destruct b eqn:?
         | |- context [if ?b then _ else _] => destruct b eqn:?
         end;
  rewrite ?negb_true_iff, ?negb_false_iff in *;
  rewrite ?orb_true_iff, ?orb_false_iff, ?andb_true_iff, ?andb_false_iff in *;
  rewrite ?Z.ltb_lt, ?Z.ltb_ge, ?Z.leb_le, ?Z.leb_gt, ?Z.eqb_eq, ?Z.eqb_neq in *.

Lemma date_ltb_irrefl a : date_ltb a a = false.
Proof. date_bools; lia. Qed.

Lemma date_ltb_trans a b c :
  date_ltb a b = true -> date_ltb b c = true -> date_ltb a c = true.
Proof. date_bools; lia. Qed.

Lemma date_leb_antisym a b :
  date_ltb a b = false -> date_ltb b a = false -> a = b.
Proof.
  date_bools.
  intros H1 H2.
  assert (year0 = year1 /\ month0 = month1 /\ day0 = day1) as (-> & -> & ->)
    by lia.
  reflexivity.
Qed.

Lemma date_min_le a e : date_ltb e (date_min a e) = false.
Proof.
  unfold date_min. destruct (date_ltb e a) eqn:E; [apply date_ltb_irrefl | exact E].
Qed.

Lemma days_in_month_pos y m : 28 <= days_in_month y m <= 31.
Proof.
  unfold days_in_month.
  repeat match goal with
         | |- context [if ?b then _ else _] => destruct b
         end; lia.
Qed.

Lemma add_one_month_index c n :
  add_one_month c = inr n -> month_index n = month_index c + 1.
Proof.
  unfold add_one_month, month_index, ret, raise.
  destruct (12 <? month c + 1) eqn:E;
    destruct (_ <=? MAXYEAR); intros H; inversion H; subst; cbn [year month]; lia.
Qed.

Lemma add_one_month_later c n :
  add_one_month c = inr n -> date_ltb c n = true.
Proof.
  unfold add_one_month, ret, raise.
  destruct (12 <? month c + 1) eqn:E;
    destruct (_ <=? MAXYEAR); intros H; inversion H; subst;
    unfold date_ltb; cbn [year month day];
    rewrite ?orb_true_iff, ?andb_true_iff, ?Z.ltb_lt, ?Z.eqb_eq;
    rewrite ?Z.ltb_lt, ?Z.ltb_ge in E; lia.
Qed.

Lemma add_one_month_valid c n :
  valid_date c = true -> add_one_month c = inr n -> valid_date n = true.
Proof.
  unfold add_one_month, ret, raise. intros V.
  destruct (12 <? month c + 1) eqn:E;
    destruct (_ <=? MAXYEAR) eqn:Y; intros H; inversion H; subst; clear H;
    unfold valid_date in *; cbn [year month day];
    rewrite ?andb_true_iff, ?Z.leb_le in *;
    rewrite ?Z.ltb_lt, ?Z.ltb_ge in E; unfold MINYEAR, MAXYEAR in *;
    match goal with
    | |- context [days_in_month ?y ?m] =>
        pose proof (days_in_month_pos y m)
    end; lia.
Qed.

(** Adding a month succeeds on a date that is not in December of the last
    year. *)
Lemma add_one_month_returns c :
  year c < MAXYEAR \/ month c < 12 ->
  year c <= MAXYEAR ->
  exists n, add_one_month c = inr n.
Proof.
  intros H Y. unfold add_one_month, ret.
  destruct (12 <? month c + 1) eqn:E; rewrite ?Z.ltb_lt, ?Z.ltb_ge in E.
  - destruct (year c + 1 <=? MAXYEAR) eqn:L; [eauto |].
    rewrite Z.leb_gt in L. lia.
  - destruct (year c <=? MAXYEAR) eqn:L; [eauto |].
    rewrite Z.leb_gt in L. lia.
Qed.

Lemma date_min_valid a e :
  valid_date a = true -> valid_date e = true -> valid_date (date_min a e) = true.
Proof. unfold date_min. destruct (date_ltb e a); auto. Qed.

Lemma date_ltb_month_index a b :
  valid_date a = true -> valid_date b = true -> date_ltb a b = true ->
  month_index a <= month_index b.
Proof. unfold month_index. date_bools; cbn [year month]; lia. Qed.

Lemma monthly_loop_walk e :
  valid_date e = true ->
  year e < MAXYEAR \/ month e < 12 ->
  forall fuel c,
    valid_date c = true ->
    (date_ltb c e = true ->
     month_index e - month_index c + 2 <= Z.of_nat fuel) ->
    (0 < fuel)%nat ->
    exists ws, monthly_loop fuel c e = Some (inr (map iso_window ws))
               /\ walk e c ws.
Proof.
  intros Ve He. induction fuel as [| fuel IH]; intros c Vc Hf Hpos; [lia |].
  cbn [monthly_loop].
  destruct (date_ltb c e) eqn:Lt.
  - specialize (Hf eq_refl).
    pose proof (date_ltb_month_index _ _ Vc Ve Lt) as Hmi.
    destruct (add_one_month_returns c) as [n Hn].
    + clear - Vc Ve Lt He. date_bools; lia.
    + clear - Vc. date_bools; lia.
    + rewrite Hn.
      pose proof (add_one_month_index _ _ Hn) as Hi.
      pose proof (add_one_month_valid _ _ Vc Hn) as Vn.
      destruct (IH (date_min n e)) as (ws & Hws & Hw).
      * apply date_min_valid; assumption.
      * intros Lt'. unfold date_min in Lt' |- *.
        destruct (date_ltb e n) eqn:En.
        -- rewrite date_ltb_irrefl in Lt'. discriminate.
        -- lia.
      * unfold date_min in *. lia.
      * rewrite Hws. exists ((c, date_min n e) :: ws). split; [reflexivity |].
        apply walk_step; assumption.
  - exists []. split; [reflexivity | apply walk_done; assumption].
Qed.

End DatesFacts.

Section PartitionFacts.
Import Dates PartitionSpec.

Lemma last_default_irrelevant {A} (l : list A) (d d' : A) :
  l <> [] -> last l d = last l d'.
Proof.
  induction l as [| a [| b l] IH]; intros H; [congruence | reflexivity |].
  change (last (b :: l) d = last (b :: l) d'). apply IH. discriminate.
Qed.

Lemma date_le_lt_trans a b c :
  date_ltb a b = true -> date_ltb c b = false -> date_ltb c a = false.
Proof.
  unfold date_ltb. destruct a, b, c; cbn [year month day].
  rewrite ?orb_true_iff, ?orb_false_iff, ?andb_true_iff, ?andb_false_iff,
    ?Z.ltb_lt, ?Z.ltb_ge, ?Z.eqb_eq, ?Z.eqb_neq.
  rewrite ?orb_false_iff, ?andb_false_iff, ?Z.ltb_ge, ?Z.eqb_neq. lia.
Qed.

Lemma walk_starts_later e c ws :
  walk e c ws -> Forall (fun w => date_ltb (fst w) c = false) ws.
Proof.
  induction 1 as [c Hc | c n ws Hc Hn Hw IH]; constructor.
  - apply date_ltb_irrefl.
  - eapply Forall_impl; [| exact IH]. intros w Hle. cbn beta in *.
    apply date_le_lt_trans with (b := date_min n e); [| exact Hle].
    unfold date_min. destruct (date_ltb e n);
      [exact Hc | eapply add_one_month_later; eassumption].
Qed.

Lemma walk_windows e c ws :
  walk e c ws ->
  Forall (fun w =>
            date_ltb (fst w) (snd w) = true
            /\ exists n, add_one_month (fst w) = inr n
                         /\ snd w = date_min n e) ws
  /\ ForallOrdPairs (fun w1 w2 => date_leb (snd w1) (fst w2) = true) ws.
Proof.
  induction 1 as [c Hc | c n ws Hc Hn Hw [IH1 IH2]].
  - split; constructor.
  - split; constructor; try assumption.
    + cbn [fst snd]. split; [| eauto].
      unfold date_min. destruct (date_ltb e n);
        [exact Hc | eapply add_one_month_later; eassumption].
    + eapply Forall_impl; [| eapply walk_starts_later; exact Hw].
      intros w Hle. cbn [fst snd]. unfold date_leb. rewrite Hle. reflexivity.
Qed.

Lemma walk_chain e c ws :
  walk e c ws -> date_ltb e c = false ->
  (ws = [] /\ c = e)
  \/ (ws <> [] /\ map fst ws = c :: removelast (map snd ws)
      /\ last (map snd ws) c = e).
Proof.
  induction 1 as [c Hc | c n ws Hc Hn Hw IH]; intros Hle.
  - left. split; [reflexivity | apply date_leb_antisym; assumption].
  - right. split; [discriminate |].
    destruct (IH (date_min_le n e)) as [[-> Heq] | (Hne & Hfst & Hlast)].
    + cbn. rewrite Heq. split; reflexivity.
    + assert (map snd ws <> []) as Hne' by (destruct ws; [congruence | discriminate]).
      cbn [map fst snd]. rewrite Hfst. split.
      * destruct (map snd ws); [congruence | reflexivity].
      * rewrite <- Hlast.
        destruct (map snd ws) as [| b l] eqn:E; [congruence |].
        change (last (b :: l) c = last (b :: l) (date_min n e)).
        apply last_default_irrelevant. discriminate.
Qed.

End PartitionFacts.

Section PartitionTheorems.
Import Dates PartitionSpec.

(** C4 (as amended). For valid dates [s <= e] with [e] before December of
    year 9999, the flexible partition returns, without raising, the ISO
    rendering of a list of windows; when [s < e] the windows are contiguous
    from [s], do not overlap, end exactly at [e], and each window's end is
    the earlier of its start plus one calendar month and [e]; when [s = e]
    there is no window at all. *)
Theorem make_monthly_date_ranges_partition (s e : date) :
  valid_date s = true ->
  valid_date e = true ->
  date_leb s e = true ->
  year e < MAXYEAR \/ month e < 12 ->
  exists ws,
    make_monthly_date_ranges s e = Some (inr (map iso_window ws))
    /\ (s = e -> ws = [])
    /\ (date_ltb s e = true -> flexible_partition s e ws).
Proof.
  intros Vs Ve Hle He.
  unfold date_leb in Hle. rewrite negb_true_iff in Hle.
  destruct (monthly_loop_walk e Ve He (loop_fuel s e) s Vs) as (ws & Hrun & Hw).
  - intros Hlt. pose proof (date_ltb_month_index _ _ Vs Ve Hlt).
    unfold loop_fuel. lia.
  - unfold loop_fuel. lia.
  - exists ws. split; [| split].
    + unfold make_monthly_date_ranges, strptime. rewrite Vs, Ve. exact Hrun.
    + intros ->. inversion Hw as [c Hc | c n ws' Hc]; subst; [reflexivity |].
      rewrite date_ltb_irrefl in Hc. discriminate.
    + intros Hlt. destruct (walk_chain _ _ _ Hw Hle) as [[_ ->] | (Hne & Hfst & Hlast)].
      * rewrite date_ltb_irrefl in Hlt. discriminate.
      * destruct (walk_windows _ _ _ Hw) as [Hall Hord].
        repeat split; assumption.
Qed.

Lemma make_monthly_date_ranges_partition_witness :
  exists ws,
    make_monthly_date_ranges (mkDate 2025 1 31) (mkDate 2025 4 30)
    = Some (inr (map iso_window ws))
    /\ (mkDate 2025 1 31 = mkDate 2025 4 30 -> ws = [])
    /\ (date_ltb (mkDate 2025 1 31) (mkDate 2025 4 30) = true ->
        flexible_partition (mkDate 2025 1 31) (mkDate 2025 4 30) ws).
Proof.
  apply (make_monthly_date_ranges_partition (mkDate 2025 1 31) (mkDate 2025 4 30)).
  - reflexivity.
  - reflexivity.
  - reflexivity.
  - left. unfold MAXYEAR. cbn. lia.
Defined.

(** C4 as stated fails when the two dates coincide: the range is valid, yet
    the partition has no window, hence no final window ending at the end
    date. *)
Lemma make_monthly_date_ranges_same_day :
  valid_date (mkDate 2025 1 10) = true
  /\ date_leb (mkDate 2025 1 10) (mkDate 2025 1 10) = true
  /\ make_monthly_date_ranges (mkDate 2025 1 10) (mkDate 2025 1 10)
     = Some (inr [])
  /\ ~ (exists ws,
          make_monthly_date_ranges (mkDate 2025 1 10) (mkDate 2025 1 10)
          = Some (inr (map iso_window ws))
          /\ flexible_partition (mkDate 2025 1 10) (mkDate 2025 1 10) ws).
Proof.
  repeat split.
  intros (ws & Hrun & Hne & _).
  destruct ws as [| w ws]; [congruence |].
  vm_compute in Hrun. discriminate.
Qed.

(** The bound on the end date is needed: a window that starts in December
    of the last year cannot be extended by a month. *)
Lemma make_monthly_date_ranges_last_december :
  make_monthly_date_ranges (mkDate 9999 12 1) (mkDate 9999 12 10)
  = Some (inl ValueError).
Proof. reflexivity. Qed.

(** C5 (as amended). A range whose start is after its end is not rejected:
    for valid dates the flexible partition returns the empty list of
    windows and the exact partition returns the single reversed range, and
    neither raises. *)
Theorem formatted_date_range_reversed (s e : date) (mode : date_type) :
  valid_date s = true ->
  valid_date e = true ->
  date_ltb e s = true ->
  formatted_date_range s e mode
  = Some (inr match mode with
              | flexible => []
              | exact => [to_iso_date_range_dt s e]
              end).
Proof.
  intros Vs Ve Hgt. destruct mode; cbn [formatted_date_range].
  - unfold make_monthly_date_ranges, strptime. rewrite Vs, Ve.
    cbv beta iota delta [ret]. unfold loop_fuel. rewrite Nat.add_comm. cbn [Nat.add monthly_loop].
    assert (date_ltb s e = false) as ->; [| reflexivity].
    destruct (date_ltb s e) eqn:E; [| reflexivity].
    pose proof (date_ltb_trans _ _ _ E Hgt) as X.
    rewrite date_ltb_irrefl in X. discriminate.
  - unfold to_iso_date_range, strptime. rewrite Vs, Ve. reflexivity.
Qed.

Lemma formatted_date_range_reversed_witness :
  formatted_date_range (mkDate 2025 2 10) (mkDate 2025 1 10) exact
  = Some (inr [to_iso_date_range_dt (mkDate 2025 2 10) (mkDate 2025 1 10)]).
Proof.
  apply (formatted_date_range_reversed (mkDate 2025 2 10) (mkDate 2025 1 10) exact);
    reflexivity.
Defined.

(** C5 as stated fails: the start is after the end and nothing is raised. *)
Lemma reversed_range_does_not_fail :
  valid_date (mkDate 2025 2 10) = true
  /\ valid_date (mkDate 2025 1 10) = true
  /\ date_ltb (mkDate 2025 1 10) (mkDate 2025 2 10) = true
  /\ ~ partition_fails
         (formatted_date_range (mkDate 2025 2 10) (mkDate 2025 1 10) flexible)
  /\ ~ partition_fails
         (formatted_date_range (mkDate 2025 2 10) (mkDate 2025 1 10) exact).
Proof.
  repeat split; intros [err H]; vm_compute in H; discriminate.
Qed.

End PartitionTheorems.

(** ** The driving time lookup *)

Section RoutingFacts.
Import Json Routing RoutingSpec.

Variable key : option string.
Variable post : route_request -> exc response.

(** The handler of [get_driving_time] catches every exception. *)
Lemma try_except_all {A} (body : exc A) (handler : A) :
  try_except body (fun e => isinstance_KeyError e || isinstance_Exception e)
             handler
  = inr match body with
        | inr a => a
        | inl _ => handler
        end.
Proof.
  destruct body as [e | a]; [| reflexivity].
  destruct e; reflexivity.
Qed.

(** Reading the duration the way the code does, with exceptions, agrees
    with the shape check of the specification. *)
Lemma read_duration j :
  match (routes <- getitem_str j "routes" ;;
         route <- getitem_int routes 0 ;;
         summary <- getitem_str route "summary" ;;
         duration <- getitem_str summary "duration" ;;
         minutes <- truediv duration 60 ;;
         ret (Some minutes)) with
  | inr v => v = minutes_of (duration_seconds j)
  | inl _ => minutes_of (duration_seconds j) = None
  end.
Proof.
  unfold minutes_of, duration_seconds, first_route, field.
  destruct j as [| | | | | kv]; try reflexivity.
  cbn [getitem_str bind].
  destruct (dict_lookup "routes" kv) as [routes |]; [| reflexivity].
  cbn [bind ret].
  destruct routes as [| | | s | l | kv']; try reflexivity.
  - (* a string: its first character is a string, which has no keys *)
    cbn [getitem_int]. destruct (String.get 0 s); reflexivity.
  - destruct l as [| route l]; [reflexivity |].
    cbn [getitem_int nth_error bind ret].
    destruct route as [| | | | | kv']; try reflexivity.
    cbn [getitem_str].
    destruct (dict_lookup "summary" kv') as [summary |]; [| reflexivity].
    cbn [bind ret].
    destruct summary as [| | | | | kv'']; try reflexivity.
    cbn [getitem_str].
    destruct (dict_lookup "duration" kv'') as [duration |]; [| reflexivity].
    cbn [bind ret].
    destruct duration as [| b | q | | |]; try reflexivity;
      cbn [truediv]; unfold float_div;
      match goal with
      | |- context [round_double ?x] => destruct (round_double x)
      end; reflexivity.
Qed.

Lemma get_driving_time_returns rlat rlon hlat hlon :
  get_driving_time key post rlat rlon hlat hlon
  = match key with
    | None => (inr None, [])
    | Some k =>
        if String.eqb k "" then (inr None, [])
        else
          let req := mkRequest k [[hlon; hlat]; [rlon; rlat]] in
          (inr (lookup_answer post req), [req])
    end.
Proof.
  unfold get_driving_time. destruct key as [k |]; [| reflexivity].
  destruct (String.eqb k ""); [reflexivity |].
  cbv zeta. rewrite try_except_all. f_equal. f_equal.
  unfold lookup_answer.
  destruct (post _) as [e | call]; [reflexivity |].
  cbn [bind]. unfold response_json.
  destruct (resp_json call) as [j |]; [| reflexivity].
  cbn [bind ret].
  pose proof (read_duration j) as H.
  destruct (bind (getitem_str j "routes") _) as [e | v].
  - rewrite H. reflexivity.
  - exact H.
Qed.

End RoutingFacts.

Section RoutingTheorems.
Import Json Routing RoutingSpec.

(** C9. [get_driving_time] never raises: every call returns minutes or
    [None]. It returns [None], without calling the provider, when the API
    key is missing or empty; otherwise it posts exactly one request and
    returns [None] when that call raises, when the body is not JSON, when
    the response lists no route, and when it has not the expected shape.
    At most one request is posted per lookup. The minutes of a response
    with a duration are the double nearest to its sixtieth, and unknown
    when the division overflows. *)
Theorem get_driving_time_never_raises
  (key : option string) (post : route_request -> exc response)
  (rlat rlon hlat hlon : Q) :
  exists v calls,
    get_driving_time key post rlat rlon hlat hlon = (inr v, calls)
    /\ (List.length calls <= 1)%nat
    /\ (falsy_str key = true -> v = None /\ calls = [])
    /\ (forall req, In req calls ->
        (forall e, post req = inl e -> v = None)
        /\ (forall call, post req = inr call ->
            resp_json call = None -> v = None)
        /\ (forall call j, post req = inr call ->
            resp_json call = Some j -> first_route j = None -> v = None)
        /\ (forall call j, post req = inr call ->
            resp_json call = Some j -> duration_seconds j = None -> v = None)
        /\ (forall call j d, post req = inr call ->
            resp_json call = Some j -> duration_seconds j = Some d ->
            v = round_double (d / 60))).
Proof.
  rewrite get_driving_time_returns.
  destruct key as [k |].
  - destruct (String.eqb k "") eqn:E.
    + exists None, []. cbn. repeat split; try lia; try contradiction.
    + cbv zeta.
      set (req := mkRequest k _).
      exists (lookup_answer post req), [req].
      split; [reflexivity |]. split; [cbn; lia |]. split.
      * cbn [falsy_str]. rewrite E. discriminate.
      * intros req' [<- | []]. unfold lookup_answer.
        repeat split.
        -- intros e ->. reflexivity.
        -- intros call -> ->. reflexivity.
        -- intros call j -> -> Hr. unfold duration_seconds. rewrite Hr.
           reflexivity.
        -- intros call j -> -> ->. reflexivity.
        -- intros call j d -> -> ->. reflexivity.
  - exists None, []. cbn. repeat split; try lia; try contradiction.
Qed.

Lemma get_driving_time_never_raises_witness :
  fst (get_driving_time None (fun _ => inl RequestException) 1 2 3 4)
  = inr None
  /\ fst (get_driving_time (Some "k"%string)
            (fun _ => inr (mkResponse (Some (JObj [("routes"%string, JArr [])]))))
            1 2 3 4)
     = inr None.
Proof.
  split.
  - destruct (get_driving_time_never_raises
                None (fun _ => inl RequestException) 1 2 3 4)
      as (v & calls & Heq & _ & Hkey & _).
    rewrite Heq. destruct (Hkey eq_refl) as [-> _]. reflexivity.
  - destruct (get_driving_time_never_raises
                (Some "k"%string)
                (fun _ => inr (mkResponse (Some (JObj [("routes"%string, JArr [])]))))
                1 2 3 4)
      as (v & calls & Heq & _ & _ & Hcalls).
    rewrite Heq. cbn [fst]. f_equal.
    assert (calls = [mkRequest "k" [[4%Q; 3%Q]; [2%Q; 1%Q]]]) as ->
        by (vm_compute in Heq; congruence).
    destruct (Hcalls _ (or_introl eq_refl)) as (_ & _ & Hroute & _).
    exact (Hroute _ _ eq_refl eq_refl eq_refl).
Defined.

End RoutingTheorems.

(** ** The polygon builder *)

Section PolygonTheorems.
Import Polygon PolygonSpec.
Local Open Scope R_scope.

Lemma vertex_radius_zero lat lon a : vertex lat lon 0 a = mkPoint lat lon.
Proof.
  unfold vertex, Rdiv. rewrite !Rmult_0_l, !Rplus_0_r. reflexivity.
Qed.

(** C6. For every centre and radius, [make_polygon] returns exactly eight
    vertices, one per angle of 90, 45, 0, 315, 270, 225, 180, 135 degrees in
    that order, the vertex for the angle [a] being
    [lat + r sin a / 69.0, lon + r cos a / (69.172 cos lat)]; with a radius
    of zero the eight vertices are the centre. *)
Theorem make_polygon_vertices (lat lon radius_miles : R) :
  make_polygon lat lon radius_miles
  = map (vertex lat lon radius_miles) [90; 45; 0; 315; 270; 225; 180; 135]
  /\ List.length (make_polygon lat lon radius_miles) = 8%nat
  /\ make_polygon lat lon 0 = repeat (mkPoint lat lon) 8.
Proof.
  assert (forall r, make_polygon lat lon r
                    = map (vertex lat lon r)
                          [90; 45; 0; 315; 270; 225; 180; 135]) as H
      by (intros r; reflexivity).
  split; [apply H |]. split.
  - rewrite H. reflexivity.
  - rewrite H. cbn [map repeat]. rewrite !vertex_radius_zero. reflexivity.
Qed.

End PolygonTheorems.

(** ** Sorting by driving time *)

Section SortFacts.
Import Aggregate AggregateSpec.

Lemma Qltb_lt x y : Qltb x y = true <-> (x < y)%Q.
Proof. unfold Qltb, Qlt. apply Z.ltb_lt. Qed.

Lemma Qltb_ge x y : Qltb x y = false <-> (y <= x)%Q.
Proof. unfold Qltb, Qle. apply Z.ltb_ge. Qed.

Lemma key_ltb_false a b : key_ltb b a = false <-> time_le a b.
Proof.
  destruct a as [x |], b as [y |]; cbn; try (split; auto; discriminate).
  - apply Qltb_ge.
  - split; [discriminate | contradiction].
Qed.

Lemma key_ltb_true a b : key_ltb a b = true -> time_le a b.
Proof.
  destruct a as [x |], b as [y |]; cbn; try discriminate; auto.
  intros H. apply Qlt_le_weak, Qltb_lt, H.
Qed.

Lemma time_le_refl a : time_le a a.
Proof. destruct a; cbn; [apply Qle_refl | exact I]. Qed.

Lemma time_le_trans a b c : time_le a b -> time_le b c -> time_le a c.
Proof.
  destruct a, b, c; cbn; auto; try contradiction. apply Qle_trans.
Qed.

Context {A : Type} (key : A -> option Q).

Local Abbreviation key_le := (key_le key).

Lemma insert_sorted_perm x l : Permutation (insert_sorted key x l) (x :: l).
Proof.
  induction l as [| y l IH]; cbn [insert_sorted]; [reflexivity |].
  destruct (key_ltb (key y) (key x)); [| reflexivity].
  rewrite IH. apply perm_swap.
Qed.

Lemma sort_by_perm l : Permutation (sort_by key l) l.
Proof.
  induction l as [| x l IH]; cbn [sort_by fold_right]; [reflexivity |].
  fold (sort_by key l). rewrite insert_sorted_perm. auto.
Qed.

Lemma insert_sorted_sorted x l :
  StronglySorted key_le l -> StronglySorted key_le (insert_sorted key x l).
Proof.
  induction 1 as [| y l Hs IH Hy]; cbn [insert_sorted].
  - repeat constructor.
  - destruct (key_ltb (key y) (key x)) eqn:E.
    + constructor; [exact IH |].
      eapply Permutation_Forall; [symmetry; apply insert_sorted_perm |].
      constructor; [apply key_ltb_true, E | exact Hy].
    + apply key_ltb_false in E.
      constructor; [constructor; assumption |].
      constructor; [exact E |].
      eapply Forall_impl; [| exact Hy].
      intros z Hz. eapply time_le_trans; eassumption.
Qed.

Lemma sort_by_sorted l : StronglySorted key_le (sort_by key l).
Proof.
  induction l as [| x l IH]; cbn [sort_by fold_right]; [constructor |].
  apply insert_sorted_sorted, IH.
Qed.

Lemma sort_by_in x l : In x (sort_by key l) <-> In x l.
Proof.
  split; apply Permutation_in; [| symmetry]; apply sort_by_perm.
Qed.

Lemma sort_by_length l : List.length (sort_by key l) = List.length l.
Proof. apply Permutation_length, sort_by_perm. Qed.

End SortFacts.

(** ** The dictionary of homes *)

Section DictFacts.
Import Aggregate AggregateSpec.

Lemma dict_get_in k d h : dict_get k d = Some h -> In (k, h) d.
Proof.
  induction d as [| [k' h'] d IH]; cbn [dict_get]; [discriminate |].
  destruct (String.eqb k k') eqn:E.
  - apply String.eqb_eq in E. subst. intros [= ->]. left. reflexivity.
  - intros H. right. auto.
Qed.

Lemma dict_get_none k d : dict_get k d = None <-> ~ In k (map fst d).
Proof.
  induction d as [| [k' h'] d IH]; cbn [dict_get map fst].
  - split; [intros _ [] | reflexivity].
  - destruct (String.eqb k k') eqn:E.
    + apply String.eqb_eq in E. subst. split; [discriminate |].
      intros H. exfalso. apply H. left. reflexivity.
    + apply String.eqb_neq in E. rewrite IH. split.
      * intros H [Hk | Hin]; [congruence | auto].
      * intros H Hin. apply H. right. exact Hin.
Qed.

Lemma in_dict_get k d h :
  NoDup (map fst d) -> In (k, h) d -> dict_get k d = Some h.
Proof.
  induction d as [| [k' h'] d IH]; cbn [dict_get map fst]; [contradiction |].
  intros Hnd [[= -> ->] | Hin].
  - rewrite String.eqb_refl. reflexivity.
  - inversion Hnd as [| ? ? Hnotin Hnd']; subst.
    destruct (String.eqb k k') eqn:E; [| auto].
    apply String.eqb_eq in E. subst. exfalso. apply Hnotin.
    apply (in_map fst) in Hin. exact Hin.
Qed.

Lemma dict_modify_keys k f d : map fst (dict_modify k f d) = map fst d.
Proof.
  induction d as [| [k' h'] d IH]; cbn [dict_modify]; [reflexivity |].
  destruct (String.eqb k k'); cbn [map fst]; [reflexivity | now rewrite IH].
Qed.

Lemma dict_get_modify k k' f d :
  dict_get k (dict_modify k' f d)
  = if String.eqb k k' then option_map f (dict_get k d) else dict_get k d.
Proof.
  induction d as [| [k1 h1] d IH]; cbn [dict_modify dict_get].
  - destruct (String.eqb k k'); reflexivity.
  - destruct (String.eqb k' k1) eqn:E1; cbn [dict_get].
    + apply String.eqb_eq in E1. subst k1.
      destruct (String.eqb k k'); reflexivity.
    + destruct (String.eqb k k1) eqn:E2; [| exact IH].
      apply String.eqb_eq in E2. subst k1.
      rewrite String.eqb_sym, E1. reflexivity.
Qed.

Lemma dict_add_keys k h d : map fst (dict_add k h d) = map fst d ++ [k].
Proof. unfold dict_add. rewrite map_app. reflexivity. Qed.

Lemma dict_get_add k k' h d :
  dict_get k (dict_add k' h d)
  = match dict_get k d with
    | Some x => Some x
    | None => if String.eqb k k' then Some h else None
    end.
Proof.
  unfold dict_add.
  induction d as [| [k1 h1] d IH]; cbn [app dict_get]; [reflexivity |].
  destruct (String.eqb k k1); [reflexivity | exact IH].
Qed.

End DictFacts.

(** ** The deduplication loop *)

Section DedupFacts.
Import Aggregate AggregateSpec.

Lemma rows_of_app k rows x :
  rows_of k (rows ++ [x])
  = rows_of k rows ++ (if has_id k x then [x] else []).
Proof. unfold rows_of. rewrite filter_app. reflexivity. Qed.

Lemma has_id_true k r : has_id k r = true <-> listing_id r = Some k.
Proof.
  unfold has_id. destruct (listing_id r) as [k' |]; [| split; discriminate].
  rewrite String.eqb_eq. split; congruence.
Qed.

Lemma rows_of_nil k rows :
  (forall r, In r rows -> listing_id r <> Some k) -> rows_of k rows = [].
Proof.
  unfold rows_of. induction rows as [| r rows IH]; intros H; [reflexivity |].
  cbn [filter]. destruct (has_id k r) eqn:E.
  - apply has_id_true in E. exfalso. apply (H r); [left; reflexivity | exact E].
  - apply IH. intros r' Hr'. apply H. right. exact Hr'.
Qed.

Lemma add_resort_base x h : base (add_resort x h) = base h.
Proof.
  unfold add_resort.
  destruct (driving_time_minutes x); [| reflexivity].
  destruct (min_driving_time h); [| reflexivity].
  destruct (Qltb _ _); reflexivity.
Qed.

Lemma add_resort_resorts x h :
  resorts (add_resort x h) = resorts h ++ [entry_of x].
Proof.
  unfold add_resort.
  destruct (driving_time_minutes x); [| reflexivity].
  destruct (min_driving_time h); [| reflexivity].
  destruct (Qltb _ _); reflexivity.
Qed.

Lemma add_resort_min x h ts :
  min_of_known (min_driving_time h) ts ->
  min_of_known (min_driving_time (add_resort x h))
               (ts ++ [driving_time_minutes x]).
Proof.
  unfold add_resort. intros Hm.
  destruct (driving_time_minutes x) as [t |].
  - destruct (min_driving_time h) as [c |]; cbn [min_of_known] in Hm.
    + destruct Hm as [Hin Hle].
      destruct (Qltb t c) eqn:E; cbn [min_driving_time min_of_known].
      * apply Qltb_lt in E. split; [apply in_or_app; right; left; reflexivity |].
        intros y Hy. apply in_app_or in Hy. destruct Hy as [Hy | [[= ->] | []]].
        -- apply Qle_trans with c; [apply Qlt_le_weak, E | auto].
        -- apply Qle_refl.
      * apply Qltb_ge in E. split; [apply in_or_app; left; exact Hin |].
        intros y Hy. apply in_app_or in Hy. destruct Hy as [Hy | [[= ->] | []]].
        -- auto.
        -- exact E.
    + cbn [min_driving_time min_of_known].
      split; [apply in_or_app; right; left; reflexivity |].
      intros y Hy. apply in_app_or in Hy. destruct Hy as [Hy | [[= ->] | []]].
      * apply Hm in Hy. discriminate.
      * apply Qle_refl.
  - destruct (min_driving_time h) as [c |]; cbn [min_driving_time min_of_known] in *.
    + destruct Hm as [Hin Hle]. split; [apply in_or_app; left; exact Hin |].
      intros y Hy. apply in_app_or in Hy. destruct Hy as [Hy | [[=] | []]]. auto.
    + intros t Ht. apply in_app_or in Ht. destruct Ht as [Ht | [<- | []]]; auto.
Qed.

Lemma add_resort_built k rows x h :
  listing_id x = Some k ->
  home_built_from k rows h ->
  home_built_from k (rows ++ [x]) (add_resort x h).
Proof.
  intros Hx (rs & Hrows & Hres & Hmin).
  exists (rs ++ [x]). rewrite add_resort_base, add_resort_resorts.
  rewrite rows_of_app, (proj2 (has_id_true k x) Hx), Hrows, Hres.
  split; [reflexivity |]. split.
  - cbn [map]. rewrite map_app. reflexivity.
  - replace (map driving_time_minutes (base h :: rs ++ [x]))
      with (map driving_time_minutes (base h :: rs) ++ [driving_time_minutes x])
      by (cbn [map app]; rewrite map_app; reflexivity).
    apply add_resort_min, Hmin.
Qed.

Lemma other_row_built k rows x h :
  listing_id x <> Some k ->
  home_built_from k rows h ->
  home_built_from k (rows ++ [x]) h.
Proof.
  intros Hx (rs & Hrows & Hres & Hmin). exists rs.
  rewrite rows_of_app.
  destruct (has_id k x) eqn:E; [apply has_id_true in E; congruence |].
  rewrite app_nil_r. auto.
Qed.

Lemma first_seen_built k rows x :
  listing_id x = Some k ->
  rows_of k rows = [] ->
  home_built_from k (rows ++ [x]) (first_seen x).
Proof.
  intros Hx Hnil. exists []. cbn [first_seen base resorts min_driving_time].
  rewrite rows_of_app, Hnil, (proj2 (has_id_true k x) Hx).
  split; [reflexivity |]. split; [reflexivity |].
  cbn [map]. destruct (driving_time_minutes x) as [t |]; cbn [min_of_known].
  - split; [left; reflexivity |].
    intros y [[= ->] | []]. apply Qle_refl.
  - intros t [<- | []]. reflexivity.
Qed.

Lemma dedup_step_inv rows d x :
  dedup_inv rows d -> dedup_inv (rows ++ [x]) (dedup_step d x).
Proof.
  intros (Hnd & Hget & Hkeys). unfold dedup_step.
  fold (listing_id x).
  destruct (listing_id x) as [k0 |] eqn:Hx.
  - destruct (String.eqb k0 "") eqn:E0.
    + (* an empty id: the row is skipped *)
      apply String.eqb_eq in E0. subst k0.
      split; [exact Hnd |]. split.
      * intros k h Hk. destruct (Hget k h Hk) as [Hne Hb].
        split; [exact Hne |]. apply other_row_built; [congruence | exact Hb].
      * intros r k Hr Hid Hne. apply in_app_or in Hr.
        destruct Hr as [Hr | [<- | []]]; [eauto | congruence].
    + apply String.eqb_neq in E0.
      destruct (dict_get k0 d) as [h0 |] eqn:G.
      * (* the home is known: one more entry *)
        split; [rewrite dict_modify_keys; exact Hnd |]. split.
        -- intros k h. rewrite dict_get_modify.
           destruct (String.eqb k k0) eqn:E.
           ++ apply String.eqb_eq in E. subst k. rewrite G. intros [= <-].
              split; [exact E0 |].
              apply add_resort_built; [exact Hx | apply (Hget k0 h0 G)].
           ++ apply String.eqb_neq in E. intros Hk.
              destruct (Hget k h Hk) as [Hne Hb].
              split; [exact Hne |]. apply other_row_built; [congruence | exact Hb].
        -- intros r k Hr Hid Hne. rewrite dict_modify_keys.
           apply in_app_or in Hr. destruct Hr as [Hr | [<- | []]]; [eauto |].
           assert (k = k0) as -> by congruence.
           apply dict_get_in in G. apply (in_map fst) in G. exact G.
      * (* a new home *)
        pose proof (proj1 (dict_get_none k0 d) G) as Hnew.
        split; [| split].
        -- rewrite dict_add_keys. apply NoDup_app; [exact Hnd | | ].
           ++ repeat constructor. intros [].
           ++ intros k Hk [<- | []]. auto.
        -- intros k h. rewrite dict_get_add.
           destruct (dict_get k d) as [h1 |] eqn:G1.
           ++ intros [= <-]. destruct (Hget k h1 G1) as [Hne Hb].
              split; [exact Hne |]. apply other_row_built; [| exact Hb].
              intros Heq. assert (k0 = k) as -> by congruence. congruence.
           ++ destruct (String.eqb k k0) eqn:E; [| discriminate].
              apply String.eqb_eq in E. subst k. intros [= <-].
              split; [exact E0 |].
              apply first_seen_built; [exact Hx |].
              apply rows_of_nil. intros r Hr Hid. apply Hnew. eauto.
        -- intros r k Hr Hid Hne. rewrite dict_add_keys. apply in_or_app.
           apply in_app_or in Hr. destruct Hr as [Hr | [<- | []]]; [left; eauto |].
           right. left. congruence.
  - (* no id: the row is skipped *)
    split; [exact Hnd |]. split.
    + intros k h Hk. destruct (Hget k h Hk) as [Hne Hb].
      split; [exact Hne |]. apply other_row_built; [congruence | exact Hb].
    + intros r k Hr Hid Hne. apply in_app_or in Hr.
      destruct Hr as [Hr | [<- | []]]; [eauto | congruence].
Qed.

Lemma deduplicate_inv rows : dedup_inv rows (deduplicate rows).
Proof.
  unfold deduplicate. induction rows as [| x rows IH] using rev_ind.
  - split; [constructor |]. split; [discriminate | contradiction].
  - rewrite fold_left_app. apply dedup_step_inv, IH.
Qed.

End DedupFacts.

(** ** The aggregate *)

Section AggregateFacts.
Import Aggregate AggregateSpec.

Lemma built_home_id k rows h :
  home_built_from k rows h -> home_id h = Some k.
Proof.
  intros (rs & Hrows & _).
  assert (In (base h) (rows_of k rows)) as Hin by (rewrite Hrows; left; reflexivity).
  apply filter_In in Hin. apply has_id_true, Hin.
Qed.


Lemma min_of_known_same_elements m ts ts' :
  (forall t, In t ts <-> In t ts') ->
  min_of_known m ts -> min_of_known m ts'.
Proof.
  intros H. destruct m as [x |]; cbn [min_of_known].
  - intros [Hin Hle]. split; [apply H, Hin |].
    intros y Hy. apply Hle, H, Hy.
  - intros Hall t Ht. apply Hall, H, Ht.
Qed.

Lemma entry_times l :
  map entry_driving_time_minutes (map entry_of l) = map driving_time_minutes l.
Proof. rewrite map_map. reflexivity. Qed.

(** The homes of the aggregate are the values of the dictionary with their
    [resorts] sorted. *)
Lemma aggregate_in rows h :
  In h (aggregate rows) <->
  exists k h0, dict_get k (deduplicate rows) = Some h0 /\ h = sort_resorts h0.
Proof.
  unfold aggregate, dict_values. rewrite sort_by_in, in_map_iff.
  destruct (deduplicate_inv rows) as (Hnd & _ & _).
  split.
  - intros (h0 & <- & Hin). apply in_map_iff in Hin.
    destruct Hin as ([k h1] & <- & Hin). exists k, h1.
    split; [apply in_dict_get; assumption | reflexivity].
  - intros (k & h0 & Hget & ->). exists h0. split; [reflexivity |].
    apply dict_get_in in Hget. apply (in_map snd) in Hget. exact Hget.
Qed.


(** What the aggregate holds for each home, in terms of the rows. *)
Lemma aggregate_home rows h :
  In h (aggregate rows) ->
  exists k rs,
    k <> ""%string
    /\ home_id h = Some k
    /\ rows_of k rows = base h :: rs
    /\ resorts h
       = sort_by entry_driving_time_minutes (map entry_of (base h :: rs))
    /\ min_of_known (min_driving_time h)
                    (map driving_time_minutes (base h :: rs)).
Proof.
  intros Hin. apply aggregate_in in Hin. destruct Hin as (k & h0 & Hget & ->).
  destruct (deduplicate_inv rows) as (_ & Hinv & _).
  destruct (Hinv k h0 Hget) as (Hne & Hb).
  pose proof (built_home_id _ _ _ Hb) as Hid.
  destruct Hb as (rs & Hrows & Hres & Hmin).
  exists k, rs. cbn [sort_resorts base resorts min_driving_time].
  rewrite Hres. auto.
Qed.




(** Rows without a home id do not change the dictionary. *)
Lemma deduplicate_filter rows d :
  fold_left dedup_step rows d
  = fold_left dedup_step (filter has_home_id rows) d.
Proof.
  revert d. induction rows as [| x rows IH]; intros d; [reflexivity |].
  cbn [filter fold_left]. unfold has_home_id at 1.
  fold (listing_id x).
  destruct (listing_id x) as [k |] eqn:Hx.
  - destruct (String.eqb k "") eqn:E; cbn [negb fold_left].
    + rewrite <- IH. f_equal. unfold dedup_step. fold (listing_id x).
      rewrite Hx, E. reflexivity.
    + apply IH.
  - rewrite <- IH. f_equal. unfold dedup_step. fold (listing_id x).
    rewrite Hx. reflexivity.
Qed.

Lemma StronglySorted_nth {A} (R : A -> A -> Prop) l :
  StronglySorted R l ->
  forall i j a b, (i < j)%nat ->
    nth_error l i = Some a -> nth_error l j = Some b -> R a b.
Proof.
  induction 1 as [| x l Hs IH Hx]; intros i j a b Hij Hi Hj.
  - destruct i; discriminate.
  - destruct j as [| j]; [lia |]. cbn [nth_error] in Hj.
    destruct i as [| i]; cbn [nth_error] in Hi.
    + injection Hi as <-. rewrite Forall_forall in Hx.
      apply Hx. eapply nth_error_In, Hj.
    + apply (IH i j); [lia | assumption | assumption].
Qed.

(** In a list sorted on a key, an element whose key is unknown comes after
    every element whose key is known. *)
Lemma unknown_after_known {A} (key : A -> option Q) l i j unknown known :
  StronglySorted (key_le key) l ->
  nth_error l i = Some unknown ->
  nth_error l j = Some known ->
  key unknown = None ->
  key known <> None ->
  (j < i)%nat.
Proof.
  intros Hs Hi Hj Hu Hk.
  destruct (Nat.lt_trichotomy i j) as [Hlt | [-> | Hgt]]; [| | exact Hgt].
  - pose proof (StronglySorted_nth _ _ Hs i j _ _ Hlt Hi Hj) as Hle.
    unfold key_le in Hle. rewrite Hu in Hle.
    destruct (key known); [contradiction | congruence].
  - congruence.
Qed.

End AggregateFacts.

(** ** The rows the aggregation works on *)

Section UpstreamFacts.
Import Routing Aggregate AggregateSpec.

Variable key : option string.
Variable post : route_request -> exc response.
Variable explore : resort_row -> exc (list raw_listing).


Lemma add_driving_time_returns result :
  exists t, add_driving_time key post result = inr (mkListing result t).
Proof.
  unfold add_driving_time.
  destruct (negb (falsy_num (lat (raw result)))
            && negb (falsy_num (lon (raw result)))); [| eauto].
  destruct (lat (raw result)) as [house_lat |]; [| eauto].
  destruct (lon (raw result)) as [house_lon |]; [| eauto].
  rewrite get_driving_time_returns.
  destruct key as [k |]; [| cbn [fst bind ret]; eauto].
  destruct (String.eqb k ""); cbv zeta; cbn [fst bind ret]; eauto.
Qed.



(** A run that returns has aggregated the rows it collected. *)
Lemma resort_map_multiple_inv df out :
  resort_map_multiple key post explore df = inr out ->
  exists rows,
    results_full key post explore df = inr rows /\ out = aggregate rows.
Proof.
  unfold resort_map_multiple.
  destruct (results_full key post explore df) as [e | rows]; cbn [bind ret].
  - discriminate.
  - intros [= <-]. eauto.
Qed.

End UpstreamFacts.

(** ** Deduplication, minimum and order of the aggregate *)

Section AggregateTheorems.
Import Routing Aggregate AggregateSpec.



(** C2. Every home [resort_map_multiple] returns has a non-empty [resorts]
    list, and its [min_driving_time] is the least of the known driving
    times of the entries of that list; it is unknown exactly when they all
    are. *)
Theorem resort_map_multiple_min_driving_time
  (key : option string) (post : route_request -> exc response)
  (explore : resort_row -> exc (list raw_listing))
  (df : list resort_row) (out : list home) (h : home) :
  resort_map_multiple key post explore df = inr out ->
  In h out ->
  resorts h <> []
  /\ min_of_known (min_driving_time h)
                  (map entry_driving_time_minutes (resorts h))
  /\ (min_driving_time h = None <->
      forall e, In e (resorts h) -> entry_driving_time_minutes e = None).
Proof.
  intros Hrun Hh.
  destruct (resort_map_multiple_inv key post explore df out Hrun)
    as (rows & _ & ->).
  destruct (aggregate_home rows h Hh) as (k & rs & _ & _ & _ & Hres & Hmin).
  assert (min_of_known (min_driving_time h)
                       (map entry_driving_time_minutes (resorts h))) as Hmin'.
  { eapply min_of_known_same_elements; [| exact Hmin].
    intros t. rewrite Hres, <- entry_times.
    split; apply Permutation_in, Permutation_map;
      [symmetry |]; apply sort_by_perm. }
  split; [| split; [exact Hmin' |]].
  - intros Hnil. apply (f_equal (@List.length _)) in Hres.
    rewrite Hnil, sort_by_length in Hres. discriminate.
  - split.
    + intros Hnone e He. rewrite Hnone in Hmin'. apply Hmin'.
      apply in_map, He.
    + intros Hall. destruct (min_driving_time h) as [x |]; [| reflexivity].
      destruct Hmin' as [Hin _]. apply in_map_iff in Hin.
      destruct Hin as (e & He & Hin). rewrite (Hall e Hin) in He. discriminate.
Qed.

Lemma resort_map_multiple_min_driving_time_witness :
  resorts Example.chalet_home <> []
  /\ min_of_known (min_driving_time Example.chalet_home)
                  (map entry_driving_time_minutes (resorts Example.chalet_home))
  /\ (min_driving_time Example.chalet_home = None <->
      forall e, In e (resorts Example.chalet_home) ->
                entry_driving_time_minutes e = None).
Proof.
  apply (resort_map_multiple_min_driving_time
           Example.api_key Example.post Example.explore
           [Example.aspen; Example.vail] Example.homes_found).
  - vm_compute. reflexivity.
  - left. reflexivity.
Defined.

(** C3. In the result of [resort_map_multiple] the homes are in ascending
    order of [min_driving_time] and the [resorts] of each home are in
    ascending order of [driving_time_minutes], an unknown time counting as
    infinity; hence a home whose driving time is unknown comes after every
    home whose driving time is known. *)
Theorem resort_map_multiple_sorted
  (key : option string) (post : route_request -> exc response)
  (explore : resort_row -> exc (list raw_listing))
  (df : list resort_row) (out : list home) :
  resort_map_multiple key post explore df = inr out ->
  StronglySorted (key_le min_driving_time) out
  /\ (forall h, In h out ->
      StronglySorted (key_le entry_driving_time_minutes) (resorts h))
  /\ (forall i j unknown known,
        nth_error out i = Some unknown ->
        nth_error out j = Some known ->
        min_driving_time unknown = None ->
        min_driving_time known <> None ->
        (j < i)%nat)
  /\ (forall h i j unknown known,
        In h out ->
        nth_error (resorts h) i = Some unknown ->
        nth_error (resorts h) j = Some known ->
        entry_driving_time_minutes unknown = None ->
        entry_driving_time_minutes known <> None ->
        (j < i)%nat).
Proof.
  intros Hrun.
  destruct (resort_map_multiple_inv key post explore df out Hrun)
    as (rows & _ & ->).
  assert (StronglySorted (key_le min_driving_time) (aggregate rows)) as Hs
      by apply sort_by_sorted.
  assert (forall h, In h (aggregate rows) ->
            StronglySorted (key_le entry_driving_time_minutes) (resorts h))
    as Hr.
  { intros h Hh. apply aggregate_in in Hh.
    destruct Hh as (k & h0 & _ & ->). apply sort_by_sorted. }
  split; [exact Hs |]. split; [exact Hr |]. split.
  - intros i j unknown known Hi Hj Hu Hk.
    eapply unknown_after_known; eassumption.
  - intros h i j unknown known Hh Hi Hj Hu Hk.
    eapply unknown_after_known; [apply Hr, Hh | eassumption ..].
Qed.

Lemma resort_map_multiple_sorted_witness :
  StronglySorted (key_le min_driving_time) Example.homes_found.
Proof.
  apply (resort_map_multiple_sorted
           Example.api_key Example.post Example.explore
           [Example.aspen; Example.vail] Example.homes_found).
  vm_compute. reflexivity.
Defined.

(** C10. A row whose home id is missing, null or empty is dropped by the
    deduplication: the result is the one the other rows alone give, every
    home of the result has a non-empty id, and every entry of a home's
    [resorts] comes from a row that carries that home's id. *)
Theorem resort_map_multiple_skips_rows_without_id
  (key : option string) (post : route_request -> exc response)
  (explore : resort_row -> exc (list raw_listing))
  (df : list resort_row) (out : list home) :
  resort_map_multiple key post explore df = inr out ->
  exists rows,
    results_full key post explore df = inr rows
    /\ out = aggregate (filter has_home_id rows)
    /\ (forall h, In h out ->
        exists k, home_id h = Some k /\ k <> ""%string)
    /\ (forall h e, In h out -> In e (resorts h) ->
        exists r,
          In r rows /\ has_home_id r = true
          /\ listing_id r = home_id h /\ e = entry_of r).
Proof.
  intros Hrun.
  destruct (resort_map_multiple_inv key post explore df out Hrun)
    as (rows & Hrows & ->).
  exists rows. split; [exact Hrows |]. split; [| split].
  - unfold aggregate, deduplicate. rewrite deduplicate_filter. reflexivity.
  - intros h Hh.
    destruct (aggregate_home rows h Hh) as (k & rs & Hne & Hid & _).
    eauto.
  - intros h e Hh He.
    destruct (aggregate_home rows h Hh) as (k & rs & Hne & Hid & Hr & Hres & _).
    rewrite Hres, sort_by_in, <- Hr in He. apply in_map_iff in He.
    destruct He as (r & <- & Hin). apply filter_In in Hin.
    destruct Hin as [Hin Hk]. apply has_id_true in Hk.
    exists r. split; [exact Hin |]. split; [| split; [congruence | reflexivity]].
    unfold has_home_id. rewrite Hk. apply negb_true_iff, String.eqb_neq, Hne.
Qed.

Lemma resort_map_multiple_skips_rows_without_id_witness :
  exists rows,
    results_full Example.api_key Example.post Example.explore
                 [Example.aspen; Example.vail] = inr rows
    /\ Example.homes_found = aggregate (filter has_home_id rows).
Proof.
  destruct (resort_map_multiple_skips_rows_without_id
              Example.api_key Example.post Example.explore
              [Example.aspen; Example.vail] Example.homes_found)
    as (rows & Hrows & Hout & _).
  - vm_compute. reflexivity.
  - exists rows. split; assumption.
Defined.

End AggregateTheorems.

(** ** The result rows *)

Section SearchFacts.
Import Dates Routing Aggregate AggregateSpec Search SearchSpec.

Variables search_start search_end : date.

Lemma format_results_eq results :
  format_results results search_start search_end
  = map (fun r => format_result r (matching search_start search_end r))
        (filter (fun r => existsb (overlaps search_start search_end)
                            (availabilitiesWithoutBookedDates
                               (raw (tagged (base r)))))
                results).
Proof.
  induction results as [| r results IH]; [reflexivity |].
  cbn [format_results filter]. fold (matching search_start search_end r).
  assert (forall l : list availability,
            (0 <? List.length (filter (overlaps search_start search_end) l))%nat
            = existsb (overlaps search_start search_end) l) as Hex.
  { induction l as [| a l IHl]; [reflexivity |].
    cbn [filter existsb]. destruct (overlaps search_start search_end a);
      [reflexivity | exact IHl]. }
  unfold matching at 1. rewrite Hex.
  destruct (existsb _ _); cbn [map]; rewrite IH; reflexivity.
Qed.

Lemma format_results_in results sr :
  In sr (format_results results search_start search_end) <->
  exists r,
    In r results
    /\ (exists a, In a (availabilitiesWithoutBookedDates (raw (tagged (base r))))
                  /\ overlaps search_start search_end a = true)
    /\ sr = format_result r (matching search_start search_end r).
Proof.
  rewrite format_results_eq, in_map_iff. split.
  - intros (r & <- & Hr). apply filter_In in Hr. destruct Hr as [Hr Hex].
    apply existsb_exists in Hex. eauto.
  - intros (r & Hr & Hex & ->). exists r. split; [reflexivity |].
    apply filter_In. split; [exact Hr | apply existsb_exists, Hex].
Qed.

(** A search that returns has formatted the homes of the aggregate. *)
Lemma search_inv key post explore df start_date end_date out :
  search key post explore df start_date end_date = inr out ->
  exists results,
    resort_map_multiple key post explore df = inr results
    /\ valid_date start_date = true
    /\ valid_date end_date = true
    /\ out = format_results results start_date end_date.
Proof.
  unfold search, strptime.
  destruct (resort_map_multiple key post explore df) as [e | results];
    cbn [bind]; [discriminate |].
  destruct (valid_date start_date); cbn [bind ret raise]; [| discriminate].
  destruct (valid_date end_date); cbn [bind ret raise]; [| discriminate].
  intros [= <-]. exists results. auto.
Qed.

End SearchFacts.

Section SearchTheorems.
Import Dates Routing Aggregate AggregateSpec Search SearchSpec.



(** C8 (as amended). The distance string of a result row is made from the
    driving time of the row its home was first seen in, not from the
    home's minimum driving time: it is that time with one decimal followed
    by [min] when the time is known and not zero, and [N/A] when it is
    unknown. The image URL of the row is the placeholder when the home has
    no image URL (none, or an empty one) and the home's own URL otherwise. *)
Theorem format_results_distance_and_image
  (results : list home) (search_start search_end : date) (sr : search_result) :
  In sr (format_results results search_start search_end) ->
  exists r,
    In r results
    /\ sr = format_result r (matching search_start search_end r)
    /\ (driving_time_minutes (base r) = None ->
        sr_distance sr = "N/A"%string)
    /\ (forall t, driving_time_minutes (base r) = Some t -> ~ (t == 0)%Q ->
        sr_distance sr = distance_of (Some t))
    /\ (falsy_str (imageUrl (raw (tagged (base r)))) = true ->
        sr_imageUrl sr = placeholder_image)
    /\ (forall u, imageUrl (raw (tagged (base r))) = Some u ->
        u <> ""%string -> sr_imageUrl sr = u).
Proof.
  intros Hsr. apply format_results_in in Hsr.
  destruct Hsr as (r & Hr & _ & ->). exists r.
  split; [exact Hr |]. split; [reflexivity |].
  cbn [format_result sr_distance sr_imageUrl].
  split; [| split; [| split]].
  - intros ->. reflexivity.
  - intros t -> Hnz. cbn [falsy_num distance_of].
    destruct (Qnum t =? 0) eqn:E; [| reflexivity].
    apply Z.eqb_eq in E. exfalso. apply Hnz.
    unfold Qeq. rewrite E. reflexivity.
  - intros ->. reflexivity.
  - intros u -> Hu. cbn [falsy_str str_of].
    apply String.eqb_neq in Hu. rewrite Hu. reflexivity.
Qed.

Lemma format_results_distance_and_image_witness :
  exists r,
    In r Example.homes_found
    /\ sr_distance (format_result r
                      (matching (mkDate 2025 1 10) (mkDate 2025 1 20) r))
       = "12.0 min"%string
    /\ sr_imageUrl (format_result r
                      (matching (mkDate 2025 1 10) (mkDate 2025 1 20) r))
       = placeholder_image.
Proof.
  destruct (format_results_distance_and_image
              Example.homes_found (mkDate 2025 1 10) (mkDate 2025 1 20)
              (format_result Example.chalet_home
                 (matching (mkDate 2025 1 10) (mkDate 2025 1 20)
                           Example.chalet_home)))
    as (r & Hr & Heq & _ & Hdist & Himg & _).
  - left. reflexivity.
  - exists r. split; [exact Hr |]. rewrite <- Heq.
    split; reflexivity.
Defined.

(** C8 as stated fails on a home found near two resorts when the first one
    is not the nearest: with Vail searched before Aspen the chalet is 12
    minutes from Aspen at least, and its row says 47 minutes. *)
Lemma distance_is_not_the_minimum :
  resort_map_multiple Example.api_key Example.post Example.explore
                      [Example.vail; Example.aspen]
  = inr Example.homes_found_vail_first
  /\ In Example.chalet_seen_near_vail Example.homes_found_vail_first
  /\ search Example.api_key Example.post Example.explore
            [Example.vail; Example.aspen]
            (mkDate 2025 1 10) (mkDate 2025 1 20)
     = inr [format_result Example.chalet_seen_near_vail
              (matching (mkDate 2025 1 10) (mkDate 2025 1 20)
                        Example.chalet_seen_near_vail)]
  /\ distance_of (min_driving_time Example.chalet_seen_near_vail)
     = "12.0 min"%string
  /\ sr_distance (format_result Example.chalet_seen_near_vail
                    (matching (mkDate 2025 1 10) (mkDate 2025 1 20)
                              Example.chalet_seen_near_vail))
     = "47.0 min"%string
  /\ sr_distance (format_result Example.chalet_seen_near_vail
                    (matching (mkDate 2025 1 10) (mkDate 2025 1 20)
                              Example.chalet_seen_near_vail))
     <> distance_of (min_driving_time Example.chalet_seen_near_vail).
Proof.
  repeat split; try (left; reflexivity).
  vm_compute. discriminate.
Qed.

End SearchTheorems.

(** * Further properties *)

(** ** More on the date range partitioner *)

Section PartitionMore.
Import Dates PartitionSpec.

Lemma add_one_month_raises c err : add_one_month c = inl err -> err = ValueError.
Proof.
  unfold add_one_month, ret, raise.
  destruct (_ <=? MAXYEAR); [discriminate | congruence].
Qed.

(** Whatever the loop returns is the rendering of a walk. *)
Lemma monthly_loop_sound fuel :
  forall c e out,
    monthly_loop fuel c e = Some (inr out) ->
    exists ws, out = map iso_window ws /\ walk e c ws.
Proof.
  induction fuel as [| fuel IH]; intros c e out; cbn [monthly_loop];
    [discriminate |].
  destruct (date_ltb c e) eqn:Lt.
  - destruct (add_one_month c) as [err | n] eqn:Hn; [discriminate |].
    destruct (monthly_loop fuel (date_min n e) e) as [[err | rest] |] eqn:Hrec;
      try discriminate.
    intros [= <-]. destruct (IH _ _ _ Hrec) as (ws & -> & Hw).
    exists ((c, date_min n e) :: ws). split; [reflexivity |].
    apply walk_step; assumption.
  - intros [= <-]. exists []. split; [reflexivity | apply walk_done, Lt].
Qed.

Lemma monthly_loop_terminates e :
  valid_date e = true ->
  forall fuel c,
    valid_date c = true ->
    (date_ltb c e = true ->
     month_index e - month_index c + 2 <= Z.of_nat fuel) ->
    (0 < fuel)%nat ->
    exists r, monthly_loop fuel c e = Some r
              /\ forall err, r = inl err -> err = ValueError.
Proof.
  intros Ve. induction fuel as [| fuel IH]; intros c Vc Hf Hpos; [lia |].
  cbn [monthly_loop].
  destruct (date_ltb c e) eqn:Lt.
  - specialize (Hf eq_refl).
    pose proof (date_ltb_month_index _ _ Vc Ve Lt) as Hmi.
    destruct (add_one_month c) as [err | n] eqn:Hn.
    + exists (inl err). split; [reflexivity |].
      intros err' [= <-]. eapply add_one_month_raises, Hn.
    + pose proof (add_one_month_index _ _ Hn) as Hi.
      pose proof (add_one_month_valid _ _ Vc Hn) as Vn.
      destruct (IH (date_min n e)) as (r & Hr & Herr).
      * apply date_min_valid; assumption.
      * intros Lt'. unfold date_min in Lt' |- *.
        destruct (date_ltb e n) eqn:En.
        -- rewrite date_ltb_irrefl in Lt'. discriminate.
        -- lia.
      * lia.
      * rewrite Hr. destruct r as [err | rest].
        -- exists (inl err). split; [reflexivity |].
           intros err' [= <-]. apply Herr. reflexivity.
        -- eexists. split; [reflexivity | discriminate].
  - eexists. split; [reflexivity | discriminate].
Qed.

(** X1. [make_monthly_date_ranges] ends on every input: it returns a list
    of windows or raises, and the only exception it raises is a
    [ValueError]. *)
Theorem make_monthly_date_ranges_terminates (s e : date) :
  exists r,
    make_monthly_date_ranges s e = Some r
    /\ forall err, r = inl err -> err = ValueError.
Proof.
  unfold make_monthly_date_ranges, strptime.
  destruct (valid_date s) eqn:Vs; cbv beta iota delta [ret raise].
  - destruct (valid_date e) eqn:Ve.
    + apply monthly_loop_terminates; try assumption.
      * intros Hlt. pose proof (date_ltb_month_index _ _ Vs Ve Hlt).
        unfold loop_fuel. lia.
      * unfold loop_fuel. lia.
    + eexists. split; [reflexivity |]. congruence.
  - eexists. split; [reflexivity |]. congruence.
Qed.

Lemma walk_from_end e ws : walk e e ws -> ws = [].
Proof.
  inversion 1 as [| c n ws' Hlt]; subst; [reflexivity |].
  rewrite date_ltb_irrefl in Hlt. discriminate.
Qed.

Lemma walk_length e :
  valid_date e = true ->
  forall c ws,
    walk e c ws ->
    valid_date c = true ->
    Z.of_nat (List.length ws) <= Z.max 0 (month_index e - month_index c + 1).
Proof.
  intros Ve c ws Hw. induction Hw as [c Hc | c n ws Hc Hn Hw IH]; intros Vc.
  - cbn. lia.
  - pose proof (date_ltb_month_index _ _ Vc Ve Hc) as Hmi.
    pose proof (add_one_month_index _ _ Hn) as Hi.
    pose proof (add_one_month_valid _ _ Vc Hn) as Vn.
    cbn [List.length]. unfold date_min in *.
    destruct (date_ltb e n) eqn:En.
    + apply walk_from_end in Hw. subst ws. cbn. lia.
    + destruct (date_ltb n e) eqn:Ne.
      * specialize (IH Vn).
        pose proof (date_ltb_month_index _ _ Vn Ve Ne). lia.
      * assert (n = e) as -> by (apply date_leb_antisym; assumption).
        apply walk_from_end in Hw. subst ws. cbn. lia.
Qed.

(** X2. The flexible partition has at most one window per calendar month
    the range touches: the number of windows is at most the number of
    months from the start month to the end month, both counted. *)
Theorem make_monthly_date_ranges_length (s e : date)
  (out : list (string * string)) :
  make_monthly_date_ranges s e = Some (inr out) ->
  Z.of_nat (List.length out)
  <= Z.max 0 (month_index e - month_index s + 1).
Proof.
  unfold make_monthly_date_ranges, strptime.
  destruct (valid_date s) eqn:Vs; cbv beta iota delta [ret raise];
    [| discriminate].
  destruct (valid_date e) eqn:Ve; [| discriminate].
  intros Hrun. apply monthly_loop_sound in Hrun.
  destruct Hrun as (ws & -> & Hw). rewrite length_map.
  apply walk_length; assumption.
Qed.

Lemma make_monthly_date_ranges_length_witness :
  Z.of_nat (List.length
              [to_iso_date_range_dt (mkDate 2025 1 31) (mkDate 2025 2 28);
               to_iso_date_range_dt (mkDate 2025 2 28) (mkDate 2025 3 10)])
  <= Z.max 0 (month_index (mkDate 2025 3 10) - month_index (mkDate 2025 1 31) + 1).
Proof.
  apply (make_monthly_date_ranges_length (mkDate 2025 1 31) (mkDate 2025 3 10)).
  reflexivity.
Defined.

Lemma walk_days e c ws :
  walk e c ws ->
  Forall (fun w => day (fst w) <= day c) ws
  /\ (day c <= 28 -> Forall (fun w => day (fst w) = day c) ws).
Proof.
  induction 1 as [c Hc | c n ws Hc Hn Hw [IH1 IH2]].
  - split; [constructor | intros _; constructor].
  - assert (ws = [] \/ date_min n e = n) as Hcase.
    { unfold date_min in *. destruct (date_ltb e n); [| right; reflexivity].
      left. eapply walk_from_end, Hw. }
    assert (day n <= day c /\ (day c <= 28 -> day n = day c)) as [Hle Heq].
    { revert Hn. unfold add_one_month, ret, raise.
      destruct (_ <=? MAXYEAR); [| discriminate]. intros [= <-].
      cbn [day].
      match goal with
      | |- context [days_in_month ?y ?m] => pose proof (days_in_month_pos y m)
      end. lia. }
    destruct Hcase as [-> | Hmin].
    + split; [| intros _]; repeat constructor; cbn [fst]; lia.
    + rewrite Hmin in *. split.
      * constructor; [cbn [fst]; lia |].
        eapply Forall_impl; [| exact IH1]. cbn beta. intros w Hw'. lia.
      * intros H28. constructor; [reflexivity |].
        eapply Forall_impl; [| apply IH2; lia]. cbn beta. intros w Hw'. lia.
Qed.

End PartitionMore.

Section DaysMore.
Import Dates PartitionSpec.

(** The windows of a walk are determined by its two ends. *)
Lemma walk_functional e c ws1 :
  walk e c ws1 -> forall ws2, walk e c ws2 -> ws1 = ws2.
Proof.
  induction 1 as [c Hc | c n ws Hc Hn Hw IH]; intros ws2 H2;
    inversion H2 as [c' Hc' | c' n' ws' Hc' Hn' Hw']; subst;
    try congruence.
  assert (n' = n) as -> by congruence.
  f_equal. apply IH, Hw'.
Qed.

Lemma add_one_month_day c n :
  add_one_month c = inr n ->
  day n = Z.min (days_in_month (year n) (month n)) (day c).
Proof.
  unfold add_one_month, ret, raise.
  destruct (_ <=? MAXYEAR); [| discriminate].
  intros [= <-]. reflexivity.
Qed.

Lemma walk_successive e c ws :
  walk e c ws ->
  forall i w1 w2,
    nth_error ws i = Some w1 ->
    nth_error ws (S i) = Some w2 ->
    day (fst w2)
    = Z.min (days_in_month (year (fst w2)) (month (fst w2))) (day (fst w1)).
Proof.
  induction 1 as [c Hc | c n ws Hc Hn Hw IH]; intros i w1 w2 H1 H2.
  - destruct i; discriminate.
  - destruct i as [| i]; cbn [nth_error] in H1, H2.
    + injection H1 as <-. cbn [fst].
      inversion Hw as [c' Hc' | c' n' ws' Hc' Hn' Hw']; subst;
        cbn [nth_error] in H2; [discriminate |].
      injection H2 as <-. cbn [fst].
      assert (date_min n e = n) as Hmin.
      { unfold date_min in *. destruct (date_ltb e n); [| reflexivity].
        rewrite date_ltb_irrefl in Hc'. discriminate. }
      rewrite Hmin. apply add_one_month_day, Hn.
    + apply (IH i); assumption.
Qed.

(** X4. The day of the month only drifts down, and stays where it was
    clipped. The windows of the flexible partition are those of the walk
    from the start date; each of them starts on a day of the month no
    later than the one of the start date, and on that very day when the
    start date is at most the 28th; and each window after the first starts
    on the day the window before it starts on, clipped to the length of
    its own month: after 31 January and 28 February comes 28 March. *)
Theorem make_monthly_date_ranges_days (s e : date)
  (out : list (string * string)) :
  make_monthly_date_ranges s e = Some (inr out) ->
  exists ws,
    out = map iso_window ws
    /\ walk e s ws
    /\ (forall ws', walk e s ws' -> ws' = ws)
    /\ Forall (fun w => day (fst w) <= day s) ws
    /\ (day s <= 28 -> Forall (fun w => day (fst w) = day s) ws)
    /\ (forall i w1 w2,
          nth_error ws i = Some w1 ->
          nth_error ws (S i) = Some w2 ->
          day (fst w2)
          = Z.min (days_in_month (year (fst w2)) (month (fst w2)))
                  (day (fst w1))).
Proof.
  unfold make_monthly_date_ranges, strptime.
  destruct (valid_date s) eqn:Vs; cbv beta iota delta [ret raise];
    [| discriminate].
  destruct (valid_date e) eqn:Ve; [| discriminate].
  intros Hrun. apply monthly_loop_sound in Hrun.
  destruct Hrun as (ws & -> & Hw). exists ws.
  split; [reflexivity |]. split; [exact Hw |].
  split; [intros ws' Hw'; apply (walk_functional e s ws' Hw' ws Hw) |].
  destruct (walk_days e s ws Hw) as [Hle Heq].
  split; [exact Hle |]. split; [exact Heq |].
  apply (walk_successive e s ws Hw).
Qed.

Lemma make_monthly_date_ranges_days_witness :
  exists ws,
    [to_iso_date_range_dt (mkDate 2025 1 31) (mkDate 2025 2 28);
     to_iso_date_range_dt (mkDate 2025 2 28) (mkDate 2025 3 28);
     to_iso_date_range_dt (mkDate 2025 3 28) (mkDate 2025 4 10)]
    = map iso_window ws
    /\ walk (mkDate 2025 4 10) (mkDate 2025 1 31) ws
    /\ (forall ws', walk (mkDate 2025 4 10) (mkDate 2025 1 31) ws' -> ws' = ws)
    /\ Forall (fun w => day (fst w) <= 31) ws
    /\ (31 <= 28 -> Forall (fun w => day (fst w) = 31) ws)
    /\ (forall i w1 w2,
          nth_error ws i = Some w1 ->
          nth_error ws (S i) = Some w2 ->
          day (fst w2)
          = Z.min (days_in_month (year (fst w2)) (month (fst w2)))
                  (day (fst w1))).
Proof.
  apply (make_monthly_date_ranges_days (mkDate 2025 1 31) (mkDate 2025 4 10)).
  reflexivity.
Defined.

End DaysMore.

(** ** More on the two sorts *)

Section SortMore.
Import Aggregate AggregateSpec MoreSpec.

Context {A : Type} (key : A -> option Q).

Lemma same_key_le a k :
  same_key a k = true <-> time_le a k /\ time_le k a.
Proof.
  unfold same_key. rewrite andb_true_iff, !negb_true_iff, !key_ltb_false.
  tauto.
Qed.

Lemma same_key_not_lt a b k :
  same_key a k = true -> same_key b k = true -> key_ltb a b = false.
Proof.
  rewrite !same_key_le. intros [Ha1 Ha2] [Hb1 Hb2].
  apply key_ltb_false. eapply time_le_trans; eassumption.
Qed.

Lemma insert_sorted_filter k x l :
  filter (fun y => same_key (key y) k) (insert_sorted key x l)
  = filter (fun y => same_key (key y) k) (x :: l).
Proof.
  induction l as [| y l IH]; [reflexivity |].
  cbn [insert_sorted].
  destruct (key_ltb (key y) (key x)) eqn:E; [| reflexivity].
  cbn [filter] in *. rewrite IH.
  destruct (same_key (key y) k) eqn:Hy; [| reflexivity].
  destruct (same_key (key x) k) eqn:Hx; [| reflexivity].
  rewrite (same_key_not_lt _ _ _ Hy Hx) in E. discriminate.
Qed.

(** X5. The sort is stable: the elements whose keys are equal come out in
    the order they went in, so homes at the same minimum driving time
    stay in the order in which they were first seen. *)
Theorem sort_by_stable (k : option Q) (l : list A) :
  filter (fun x => same_key (key x) k) (sort_by key l)
  = filter (fun x => same_key (key x) k) l.
Proof.
  induction l as [| x l IH]; [reflexivity |].
  cbn [sort_by fold_right]. fold (sort_by key l).
  rewrite insert_sorted_filter. cbn [filter]. rewrite IH. reflexivity.
Qed.

Lemma sort_by_sorted_id l :
  StronglySorted (key_le key) l -> sort_by key l = l.
Proof.
  induction 1 as [| x l Hs IH Hx]; [reflexivity |].
  cbn [sort_by fold_right]. fold (sort_by key l). rewrite IH.
  destruct l as [| y l]; [reflexivity |].
  cbn [insert_sorted]. inversion Hx as [| ? ? Hxy _]; subst.
  rewrite (proj2 (key_ltb_false (key x) (key y)) Hxy). reflexivity.
Qed.

(** X6. Sorting a list that is already in ascending order of the key
    returns it unchanged; in particular sorting twice is sorting once. *)
Theorem sort_by_idempotent (l : list A) :
  (StronglySorted (key_le key) l -> sort_by key l = l)
  /\ sort_by key (sort_by key l) = sort_by key l.
Proof.
  split; [apply sort_by_sorted_id |].
  apply sort_by_sorted_id, sort_by_sorted.
Qed.

End SortMore.

Lemma sort_by_idempotent_witness :
  Aggregate.sort_by (fun x : option Q => x) [Some 1%Q; Some 2%Q; None]
  = [Some 1%Q; Some 2%Q; None].
Proof.
  refine (proj1 (sort_by_idempotent (fun x : option Q => x)
                                    [Some 1%Q; Some 2%Q; None]) _).
  repeat constructor.
  unfold AggregateSpec.key_le, AggregateSpec.time_le, Qle. cbn. lia.
Defined.

(** ** More on the aggregate *)

Section AggregateMore.
Import Routing Aggregate AggregateSpec MoreSpec.

Lemma list_sum_cons_eq a l : list_sum (a :: l) = (a + list_sum l)%nat.
Proof. reflexivity. Qed.

Lemma total_entries_app l1 l2 :
  total_entries (l1 ++ l2) = (total_entries l1 + total_entries l2)%nat.
Proof. unfold total_entries. rewrite map_app, list_sum_app. reflexivity. Qed.

Lemma total_entries_perm l1 l2 :
  Permutation l1 l2 -> total_entries l1 = total_entries l2.
Proof.
  unfold total_entries.
  induction 1; simpl; lia.
Qed.

Lemma total_entries_modify k x d h0 :
  dict_get k d = Some h0 ->
  total_entries (dict_values (dict_modify k (add_resort x) d))
  = S (total_entries (dict_values d)).
Proof.
  unfold total_entries, dict_values.
  induction d as [| [k' h'] d IH]; cbn [dict_get dict_modify]; [discriminate |].
  destruct (String.eqb k k'); cbn [map snd]; rewrite !list_sum_cons_eq.
  - intros _. rewrite add_resort_resorts, length_app. cbn [List.length]. lia.
  - intros H. rewrite (IH H). lia.
Qed.

Lemma total_entries_step d x :
  total_entries (dict_values (dedup_step d x))
  = (total_entries (dict_values d) + if has_home_id x then 1 else 0)%nat.
Proof.
  unfold dedup_step, has_home_id. fold (listing_id x).
  destruct (listing_id x) as [k |]; [| lia].
  destruct (String.eqb k ""); cbn [negb]; [lia |].
  destruct (dict_get k d) as [h0 |] eqn:G.
  - rewrite (total_entries_modify _ _ _ _ G). lia.
  - unfold dict_add, dict_values. rewrite map_app, total_entries_app.
    reflexivity.
Qed.

Lemma total_entries_fold rows d :
  total_entries (dict_values (fold_left dedup_step rows d))
  = (total_entries (dict_values d)
     + List.length (filter has_home_id rows))%nat.
Proof.
  revert d. induction rows as [| x rows IH]; intros d; cbn [fold_left filter].
  - cbn. lia.
  - rewrite IH, total_entries_step.
    destruct (has_home_id x); cbn [List.length]; lia.
Qed.

Lemma total_entries_aggregate rows :
  total_entries (aggregate rows) = List.length (filter has_home_id rows).
Proof.
  unfold aggregate.
  rewrite (total_entries_perm _ _ (sort_by_perm min_driving_time _)).
  transitivity (total_entries (dict_values (deduplicate rows))).
  - unfold total_entries. rewrite map_map. apply f_equal, map_ext.
    intros h. cbn [sort_resorts resorts]. apply sort_by_length.
  - unfold deduplicate. rewrite total_entries_fold. reflexivity.
Qed.

(** X7. No entry is lost and none is made up: over the homes of the result
    the [resorts] lists hold as many entries as there were rows with a home
    id, and there are no more homes than such rows. *)
Theorem resort_map_multiple_counts_rows
  (key : option string) (post : route_request -> exc response)
  (explore : resort_row -> exc (list raw_listing))
  (df : list resort_row) (out : list home) :
  resort_map_multiple key post explore df = inr out ->
  exists rows,
    results_full key post explore df = inr rows
    /\ total_entries out = List.length (filter has_home_id rows)
    /\ (List.length out <= List.length (filter has_home_id rows))%nat.
Proof.
  intros Hrun.
  destruct (resort_map_multiple_inv key post explore df out Hrun)
    as (rows & Hrows & ->).
  exists rows. split; [exact Hrows |].
  pose proof (total_entries_aggregate rows) as Htot.
  split; [exact Htot |]. rewrite <- Htot.
  assert (forall l, (forall h, In h l -> resorts h <> []) ->
                    (List.length l <= total_entries l)%nat) as Hlen.
  { unfold total_entries. induction l as [| h l IH]; intros Hne; [cbn; lia |].
    cbn [map List.length]. rewrite list_sum_cons_eq.
    assert (resorts h <> []) as Hh by (apply Hne; left; reflexivity).
    assert (List.length l <= list_sum (map (fun h0 => List.length (resorts h0)) l))%nat
      by (apply IH; intros h' Hh'; apply Hne; right; exact Hh').
    destruct (resorts h); [congruence | cbn [List.length]; lia]. }
  apply Hlen. intros h Hh Hnil.
  destruct (aggregate_home rows h Hh) as (k & rs & _ & _ & _ & Hres & _).
  apply (f_equal (@List.length _)) in Hres.
  rewrite Hnil, sort_by_length in Hres. discriminate.
Qed.

Lemma resort_map_multiple_counts_rows_witness :
  exists rows,
    results_full Example.api_key Example.post Example.explore
                 [Example.aspen; Example.vail] = inr rows
    /\ total_entries Example.homes_found
       = List.length (filter has_home_id rows).
Proof.
  destruct (resort_map_multiple_counts_rows
              Example.api_key Example.post Example.explore
              [Example.aspen; Example.vail] Example.homes_found)
    as (rows & Hrows & Htot & _).
  - vm_compute. reflexivity.
  - exists rows. split; assumption.
Defined.

(** X8. The nearest resort comes first: the first entry of a home's
    [resorts] carries a driving time equal to the home's
    [min_driving_time], both being unknown when no time is known. *)
Theorem resort_map_multiple_nearest_first
  (key : option string) (post : route_request -> exc response)
  (explore : resort_row -> exc (list raw_listing))
  (df : list resort_row) (out : list home) (h : home) :
  resort_map_multiple key post explore df = inr out ->
  In h out ->
  exists e rest,
    resorts h = e :: rest
    /\ time_eq (entry_driving_time_minutes e) (min_driving_time h).
Proof.
  intros Hrun Hh.
  destruct (resort_map_multiple_inv key post explore df out Hrun)
    as (rows & _ & ->).
  destruct (aggregate_home rows h Hh) as (k & rs & _ & _ & _ & Hres & Hmin).
  assert (StronglySorted (key_le entry_driving_time_minutes) (resorts h)) as Hs
      by (rewrite Hres; apply sort_by_sorted).
  assert (min_of_known (min_driving_time h)
                       (map entry_driving_time_minutes (resorts h))) as Hmin'.
  { eapply min_of_known_same_elements; [| exact Hmin].
    intros t. rewrite Hres, <- entry_times.
    split; apply Permutation_in, Permutation_map;
      [symmetry |]; apply sort_by_perm. }
  destruct (resorts h) as [| e rest] eqn:Hr.
  { apply (f_equal (@List.length _)) in Hres.
    rewrite sort_by_length in Hres. discriminate. }
  exists e, rest. split; [reflexivity |].
  inversion Hs as [| ? ? _ Hall]; subst. rewrite Forall_forall in Hall.
  destruct (min_driving_time h) as [x |]; cbn [min_of_known] in Hmin'.
  - destruct Hmin' as [Hin Hle]. cbn [map] in Hin, Hle.
    destruct Hin as [He | Hin].
    + rewrite He. cbn. apply Qeq_refl.
    + apply in_map_iff in Hin. destruct Hin as (e' & He' & Hin).
      pose proof (Hall e' Hin) as Hee. unfold key_le in Hee.
      rewrite He' in Hee.
      destruct (entry_driving_time_minutes e) as [y |] eqn:Ey;
        cbn [time_le] in Hee; [| contradiction].
      cbn [time_eq]. apply Qle_antisym; [exact Hee |].
      apply Hle. left. reflexivity.
  - rewrite (Hmin' (entry_driving_time_minutes e)) by (left; reflexivity).
    exact I.
Qed.

Lemma resort_map_multiple_nearest_first_witness :
  exists e rest,
    resorts Example.chalet_home = e :: rest
    /\ time_eq (entry_driving_time_minutes e)
               (min_driving_time Example.chalet_home).
Proof.
  apply (resort_map_multiple_nearest_first
           Example.api_key Example.post Example.explore
           [Example.aspen; Example.vail] Example.homes_found).
  - vm_compute. reflexivity.
  - left. reflexivity.
Defined.

End AggregateMore.

(** ** Failures and missing credentials in a run *)

Section RunMore.
Import Dates Routing Aggregate AggregateSpec Search SearchSpec.

Variable key : option string.
Variable post : route_request -> exc response.
Variable explore : resort_row -> exc (list raw_listing).

Lemma collect_raises found pre row rest err :
  (forall r, In r pre -> explore r = inr (found r)) ->
  explore row = inl err ->
  collect explore (pre ++ row :: rest) = inl err.
Proof.
  intros Hpre Hrow. induction pre as [| r pre IH]; cbn [app collect].
  - rewrite Hrow. reflexivity.
  - rewrite (Hpre r (or_introl eq_refl)). cbn [bind].
    rewrite IH by (intros r' Hr'; apply Hpre; right; exact Hr').
    reflexivity.
Qed.

(** X9. A failed upstream search fails the whole run: when the search near
    a resort raises, every earlier one having returned, the run raises the
    same exception, whatever the searches near the later resorts would
    give, and so does the search route; no partial result is returned. *)
Theorem resort_map_multiple_upstream_failure
  (found : resort_row -> list raw_listing)
  (pre : list resort_row) (row : resort_row) (rest : list resort_row)
  (err : exn) (start_date end_date : date) :
  (forall r, In r pre -> explore r = inr (found r)) ->
  explore row = inl err ->
  resort_map_multiple key post explore (pre ++ row :: rest) = inl err
  /\ search key post explore (pre ++ row :: rest) start_date end_date
     = inl err.
Proof.
  intros Hpre Hrow.
  assert (resort_map_multiple key post explore (pre ++ row :: rest) = inl err)
    as Hrun.
  { unfold resort_map_multiple, results_full.
    rewrite (collect_raises found pre row rest err Hpre Hrow). reflexivity. }
  split; [exact Hrun |]. unfold search. rewrite Hrun. reflexivity.
Qed.

Lemma add_driving_times_in collected rows r :
  add_driving_times key post collected = inr rows ->
  In r rows ->
  exists t, In t collected /\ add_driving_time key post t = inr r.
Proof.
  revert rows. induction collected as [| t collected IH]; intros rows;
    cbn [add_driving_times].
  - intros [= <-] [].
  - destruct (add_driving_time key post t) as [e | r0] eqn:Ht;
      cbn [bind]; [discriminate |].
    destruct (add_driving_times key post collected) as [e | rs];
      cbn [bind ret]; [discriminate |].
    intros [= <-] [<- | Hin].
    + exists t. split; [left; reflexivity | exact Ht].
    + destruct (IH rs eq_refl Hin) as (t' & Ht' & Hr).
      exists t'. split; [right; exact Ht' | exact Hr].
Qed.

Lemma add_driving_time_without_key t r :
  falsy_str key = true ->
  add_driving_time key post t = inr r ->
  driving_time_minutes r = None.
Proof.
  intros Hkey. unfold add_driving_time.
  destruct (negb (falsy_num (lat (raw t))) && negb (falsy_num (lon (raw t))));
    [| intros [= <-]; reflexivity].
  destruct (lat (raw t)) as [house_lat |]; [| intros [= <-]; reflexivity].
  destruct (lon (raw t)) as [house_lon |]; [| intros [= <-]; reflexivity].
  rewrite get_driving_time_returns.
  destruct key as [k |]; [| cbn [fst bind ret]; intros [= <-]; reflexivity].
  cbn [falsy_str] in Hkey. rewrite Hkey. cbn [fst bind ret].
  intros [= <-]. reflexivity.
Qed.

(** X10. Without a routing key nothing is known about driving times: when
    the key is missing or empty, every row of a search that returns says
    [N/A] for its distance and has no drive time, and every entry of its
    [resorts] has an unknown driving time. *)
Theorem search_without_routing_key
  (df : list resort_row) (start_date end_date : date)
  (out : list search_result) (sr : search_result) :
  falsy_str key = true ->
  search key post explore df start_date end_date = inr out ->
  In sr out ->
  sr_distance sr = "N/A"%string
  /\ sr_driveTime sr = None
  /\ exists l, sr_resorts sr = ResortsList l
               /\ forall e, In e l -> entry_driving_time_minutes e = None.
Proof.
  intros Hkey Hsearch Hsr.
  destruct (search_inv _ _ _ _ _ _ _ Hsearch) as (results & Hrun & _ & _ & ->).
  destruct (resort_map_multiple_inv _ _ _ _ _ Hrun) as (rows & Hrows & ->).
  assert (forall r, In r rows -> driving_time_minutes r = None) as Hnone.
  { intros r Hr. unfold results_full in Hrows.
    destruct (collect explore df) as [e | collected]; cbn [bind] in Hrows;
      [discriminate |].
    destruct (add_driving_times_in _ _ _ Hrows Hr) as (t & _ & Ht).
    eapply add_driving_time_without_key; eassumption. }
  apply format_results_in in Hsr. destruct Hsr as (h & Hh & _ & ->).
  destruct (aggregate_home rows h Hh) as (k & rs & _ & _ & Hr & Hres & _).
  assert (forall r, In r (base h :: rs) -> driving_time_minutes r = None)
    as Hnone'.
  { intros r Hin. apply Hnone. rewrite <- Hr in Hin.
    apply filter_In in Hin. apply Hin. }
  cbn [format_result sr_distance sr_driveTime sr_resorts].
  rewrite (Hnone' (base h) (or_introl eq_refl)).
  split; [reflexivity |]. split; [reflexivity |].
  destruct (resorts h) as [| e0 l0] eqn:Hl.
  { apply (f_equal (@List.length _)) in Hres.
    rewrite sort_by_length in Hres. discriminate. }
  exists (e0 :: l0). split; [reflexivity |].
  intros e He. rewrite Hres in He. apply sort_by_in, in_map_iff in He.
  destruct He as (r & <- & Hin). apply Hnone', Hin.
Qed.

End RunMore.

Lemma resort_map_multiple_upstream_failure_witness :
  Aggregate.resort_map_multiple Example.api_key Example.post
    (fun row => if String.eqb (Aggregate.row_resort row) "Vail"
                then inl RequestException else Example.explore row)
    ([Example.aspen] ++ Example.vail :: [Example.aspen])
  = inl RequestException.
Proof.
  apply (resort_map_multiple_upstream_failure
           Example.api_key Example.post _ Example.found
           [Example.aspen] Example.vail [Example.aspen] RequestException
           (Dates.mkDate 2025 1 10) (Dates.mkDate 2025 1 20)).
  - intros r [<- | []]. reflexivity.
  - reflexivity.
Defined.

Lemma search_without_routing_key_witness :
  Forall (fun sr => Search.sr_distance sr = "N/A"%string)
         match Search.search None Example.post Example.explore
                 [Example.aspen; Example.vail]
                 (Dates.mkDate 2025 1 1) (Dates.mkDate 2025 1 31) with
         | inr out => out
         | inl _ => []
         end.
Proof.
  apply Forall_forall. intros sr Hsr.
  apply (search_without_routing_key None Example.post Example.explore
           [Example.aspen; Example.vail]
           (Dates.mkDate 2025 1 1) (Dates.mkDate 2025 1 31)
           _ sr eq_refl eq_refl Hsr).
Defined.

(** ** Bearer tokens and the GraphQL transport *)

Section TransportMore.
Import Json Routing Search Token Http TransportSpec.

Lemma substring_all s : substring 0 (String.length s) s = s.
Proof.
  induction s as [| c s IH]; [reflexivity |].
  cbn [String.length substring]. rewrite IH. reflexivity.
Qed.

Lemma get_token_of_bearer t :
  get_token_from_request (Some ("Bearer " ++ t)%string) = Some t.
Proof.
  unfold get_token_from_request. cbn [append prefix].
  assert (prefix "" t = true) as -> by (destruct t; reflexivity).
  cbn [Ascii.eqb Bool.eqb andb String.length Nat.sub substring].
  rewrite Nat.sub_0_r. cbn. rewrite substring_all. reflexivity.
Qed.

(** X11. The token travels unchanged: the token read from an
    [Authorization: Bearer t] header, when it is not empty, is sent upstream
    under the very same header value, whatever [token_box] holds, and
    reading that header gives the token back. *)
Theorem bearer_token_round_trip (t : string) (token_box_access : option string) :
  t <> ""%string ->
  header "authorization"
         (build_headers (get_token_from_request (Some ("Bearer " ++ t)%string))
                        token_box_access)
  = Some ("Bearer " ++ t)%string
  /\ get_token_from_request
       (header "authorization" (build_headers (Some t) token_box_access))
     = Some t.
Proof.
  intros Ht. apply String.eqb_neq in Ht.
  rewrite get_token_of_bearer. unfold build_headers. cbn [falsy_str].
  rewrite Ht. cbn [header String.eqb Ascii.eqb Bool.eqb andb str_of].
  cbn. split; [reflexivity |]. apply get_token_of_bearer.
Qed.

Lemma bearer_token_round_trip_witness :
  get_token_from_request
    (header "authorization" (build_headers (Some "abc"%string) None))
  = Some "abc"%string.
Proof.
  apply (bearer_token_round_trip "abc" None). discriminate.
Defined.

End TransportMore.

Section HttpMore.
Import Json Http TransportSpec.

Lemma raise_for_status_ok r :
  raise_for_status r = inr tt <-> status_ok (status_code r).
Proof.
  unfold raise_for_status, status_ok.
  destruct (400 <=? status_code r) eqn:E1;
    destruct (status_code r <? 600) eqn:E2; cbn [andb];
    rewrite ?Z.leb_le, ?Z.leb_gt, ?Z.ltb_lt, ?Z.ltb_ge in *;
    split; intros H; try discriminate; try reflexivity; lia.
Qed.

Lemma get_errors_obj kv : get_errors (JObj kv) = inr (errors_of kv).
Proof.
  unfold get_errors, errors_of. destruct (dict_lookup "errors" kv); reflexivity.
Qed.

(** [post_graphql] on a body that is a JSON object. *)
Lemma post_graphql_response_obj r kv :
  body r = Some (JObj kv) ->
  post_graphql_response r
  = if truthy (errors_of kv) then inl (RuntimeError (errors_of kv))
    else if (400 <=? status_code r) && (status_code r <? 600)
         then inl (HTTPError (status_code r))
         else lift (getitem_str (JObj kv) "data").
Proof.
  intros Hb. unfold post_graphql_response, parse. rewrite Hb, get_errors_obj.
  unfold raise_for_status.
  destruct (truthy (errors_of kv)).
  - destruct (400 <=? status_code r); reflexivity.
  - destruct (400 <=? status_code r) eqn:E1; cbn [andb]; [| reflexivity].
    destruct (status_code r <? 600); reflexivity.
Qed.

(** [post_graphql] on any other body. *)
Lemma post_graphql_response_other r v :
  post_graphql_response r = inr v -> exists kv, body r = Some (JObj kv).
Proof.
  unfold post_graphql_response, parse.
  destruct (body r) as [d |].
  - destruct d as [| b | q | s | l | kv]; cbn [get_errors];
      try discriminate. eauto.
  - cbn [truthy].
    match goal with
    | |- context [match ?x with inl _ => _ | inr _ => _ end] => destruct x
    end; discriminate.
Qed.

Lemma status_ok_bool s :
  (400 <=? s) && (s <? 600) = false <-> status_ok s.
Proof.
  unfold status_ok. rewrite andb_false_iff, Z.leb_gt, Z.ltb_ge. reflexivity.
Qed.

Lemma post_graphql_response_iff r v :
  post_graphql_response r = inr v
  <-> status_ok (status_code r)
      /\ exists kv,
           body r = Some (JObj kv)
           /\ truthy (errors_of kv) = false
           /\ dict_lookup "data" kv = Some v.
Proof.
  split.
  - intros Hv. destruct (post_graphql_response_other r v Hv) as [kv Hb].
    rewrite (post_graphql_response_obj r kv Hb) in Hv.
    destruct (truthy (errors_of kv)) eqn:Ht; [discriminate |].
    destruct ((400 <=? status_code r) && (status_code r <? 600)) eqn:Hs;
      [discriminate |].
    cbn [getitem_str lift] in Hv.
    destruct (dict_lookup "data" kv) as [v' |] eqn:Hd; [| discriminate].
    injection Hv as <-. split; [apply status_ok_bool, Hs |].
    exists kv. auto.
  - intros (Hs & kv & Hb & Ht & Hd).
    rewrite (post_graphql_response_obj r kv Hb), Ht.
    rewrite (proj2 (status_ok_bool _) Hs). cbn [getitem_str lift].
    rewrite Hd. reflexivity.
Qed.

(** X12. [post_graphql] hands back the [data] of a response exactly when
    the status is not an error status (400 to 599), the body is a JSON
    object, its [errors] are absent or empty, and it has a [data] key. When
    the [errors] of the body are not empty it raises a [RuntimeError] that
    carries them, whatever the status is. *)
Theorem post_graphql_response_returns (r : http_response) :
  (forall v,
      post_graphql_response r = inr v
      <-> status_ok (status_code r)
          /\ exists kv,
               body r = Some (JObj kv)
               /\ truthy (errors_of kv) = false
               /\ dict_lookup "data" kv = Some v)
  /\ (forall kv,
        body r = Some (JObj kv) ->
        truthy (errors_of kv) = true ->
        post_graphql_response r = inl (RuntimeError (errors_of kv))).
Proof.
  split; [apply post_graphql_response_iff |].
  intros kv Hb Ht. rewrite (post_graphql_response_obj r kv Hb), Ht.
  reflexivity.
Qed.

Lemma post_graphql_response_returns_witness :
  post_graphql_response
    (mkHttp 500 (Some (JObj [("errors"%string, JArr [JStr "boom"])])))
  = inl (RuntimeError (JArr [JStr "boom"])).
Proof.
  apply (proj2 (post_graphql_response_returns
                  (mkHttp 500 (Some (JObj [("errors"%string,
                                            JArr [JStr "boom"])]))))
               [("errors"%string, JArr [JStr "boom"])]);
    reflexivity.
Defined.

Lemma gql_noauth_response_iff r v :
  gql_noauth_response r = inr v ->
  status_ok (status_code r)
  /\ exists kv, body r = Some (JObj kv)
                /\ dict_lookup "errors" kv = None
                /\ dict_lookup "data" kv = Some v.
Proof.
  unfold gql_noauth_response.
  destruct (raise_for_status r) as [e | []] eqn:Hs; [discriminate |].
  apply raise_for_status_ok in Hs.
  destruct (body r) as [j |]; [| discriminate].
  destruct j as [| b | q | s | l | kv]; cbn [contains_errors ret raise];
    try discriminate.
  - destruct (index 0 "errors" s); cbn [getitem_str raise lift]; discriminate.
  - destruct (existsb _ l); cbn [getitem_str raise lift]; discriminate.
  - destruct (dict_lookup "errors" kv) as [errs |] eqn:He.
    + cbn [getitem_str]. rewrite He. discriminate.
    + cbn [getitem_str lift].
      destruct (dict_lookup "data" kv) as [v' |] eqn:Hd; cbn [ret raise];
        [| discriminate].
      intros [= <-]. split; [exact Hs |]. exists kv. auto.
Qed.

(** X13. The transport of the login flow is the stricter one: whatever
    [gql_noauth] returns for a response, [post_graphql] returns for it too,
    and [gql_noauth] returns nothing for a body that has an [errors] key,
    be the errors empty. *)
Theorem gql_noauth_response_stricter (r : http_response) :
  (forall v, gql_noauth_response r = inr v -> post_graphql_response r = inr v)
  /\ (forall kv v,
        body r = Some (JObj kv) ->
        dict_lookup "errors" kv <> None ->
        gql_noauth_response r <> inr v).
Proof.
  split.
  - intros v Hv.
    destruct (gql_noauth_response_iff r v Hv) as (Hs & kv & Hb & He & Hd).
    apply post_graphql_response_iff.
    split; [exact Hs |]. exists kv. split; [exact Hb |].
    split; [| exact Hd]. unfold errors_of. rewrite He. reflexivity.
  - intros kv v Hb He Hv.
    destruct (gql_noauth_response_iff r v Hv) as (_ & kv' & Hb' & He' & _).
    rewrite Hb in Hb'. injection Hb' as <-. congruence.
Qed.

Lemma gql_noauth_response_stricter_witness :
  post_graphql_response
    (mkHttp 200 (Some (JObj [("data"%string, JStr "ok")])))
  = inr (JStr "ok")
  /\ gql_noauth_response
       (mkHttp 200 (Some (JObj [("errors"%string, JArr []);
                                ("data"%string, JStr "ok")])))
     <> inr (JStr "ok").
Proof.
  split.
  - apply (gql_noauth_response_stricter
             (mkHttp 200 (Some (JObj [("data"%string, JStr "ok")])))).
    reflexivity.
  - apply (proj2 (gql_noauth_response_stricter
                    (mkHttp 200 (Some (JObj [("errors"%string, JArr []);
                                             ("data"%string, JStr "ok")]))))
                 [("errors"%string, JArr []); ("data"%string, JStr "ok")]).
    + reflexivity.
    + discriminate.
Defined.

End HttpMore.

(** ** The upstream search near one resort *)

Section UpstreamMore.
Import Dates Http Aggregate Upstream TransportSpec.

Variable post_graphql : variables -> gexc page_result.
Variable sorted_at : string.
Variable clock : nat -> string.
Variables (polygon : list Polygon.point)
          (formatted : list (string * string))
          (date_type : string) (min_nights page_size total_guests : Z)
          (pets_allowed : bool).

Local Abbreviation vars :=
  (vars_page sorted_at clock polygon formatted date_type min_nights
             page_size total_guests pets_allowed).

Local Abbreviation loop :=
  (explore_loop post_graphql sorted_at clock polygon formatted date_type
                min_nights page_size total_guests pets_allowed).

Local Abbreviation page_rows :=
  (fun res => rows_of_page pets_allowed (homeRecs res)).

(** The loop returns exactly on a finite run of pages that fits the
    fuel. *)
Lemma explore_loop_returns fuel :
  forall p acc posted rows posted',
    loop fuel p acc posted = Some (inr rows, posted')
    <-> exists pages,
          pages_from post_graphql vars p pages
          /\ (List.length pages <= fuel)%nat
          /\ rows = acc ++ flat_map page_rows pages
          /\ posted' = posted ++ map vars (seq p (List.length pages)).
Proof.
  induction fuel as [| fuel IH]; intros p acc posted rows posted';
    cbn [explore_loop].
  - split; [discriminate |].
    intros (pages & Hp & Hlen & _). inversion Hp; subst; cbn in Hlen; lia.
  - destruct (post_graphql (vars p)) as [e | res] eqn:Hpost.
    + split; [discriminate |].
      intros (pages & Hp & _). inversion Hp; subst; congruence.
    + destruct (hasMore res) eqn:Hmore.
      * rewrite IH. split.
        -- intros (pages & Hp & Hlen & -> & ->).
           exists (res :: pages). split; [apply more_pages; assumption |].
           split; [cbn; lia |]. cbn [flat_map List.length seq map].
           rewrite <- !app_assoc. split; reflexivity.
        -- intros (pages & Hp & Hlen & -> & ->).
           inversion Hp as [? res' Hpost' Hmore' | ? res' rest Hpost' Hmore' Hrest];
             subst; rewrite Hpost in Hpost'; injection Hpost' as <-;
             [congruence |].
           exists rest. split; [exact Hrest |].
           split; [cbn in Hlen; lia |]. cbn [flat_map List.length seq map].
           rewrite <- !app_assoc. split; reflexivity.
      * split.
        -- intros [= <- <-]. exists [res].
           split; [apply last_page; assumption |].
           split; [cbn; lia |]. cbn [flat_map List.length seq map].
           rewrite app_nil_r. split; reflexivity.
        -- intros (pages & Hp & Hlen & -> & ->).
           inversion Hp as [? res' Hpost' Hmore' | ? res' rest Hpost' Hmore' Hrest];
             subst; rewrite Hpost in Hpost'; injection Hpost' as <-;
             [| congruence].
           cbn [flat_map List.length seq map]. rewrite app_nil_r. reflexivity.
Qed.

(** Every query the loop posts, whatever its outcome, is the one of the
    next page. *)
Lemma explore_loop_posted fuel :
  forall p acc posted out posted',
    loop fuel p acc posted = Some (out, posted') ->
    exists n, posted' = posted ++ map vars (seq p n) /\ (0 < n)%nat.
Proof.
  induction fuel as [| fuel IH]; intros p acc posted out posted';
    cbn [explore_loop]; [discriminate |].
  destruct (post_graphql (vars p)) as [e | res].
  - intros [= <- <-]. exists 1%nat. split; [reflexivity | lia].
  - destruct (hasMore res).
    + intros H. destruct (IH _ _ _ _ _ H) as (n & -> & _).
      exists (S n). cbn [seq map]. rewrite <- app_assoc.
      split; [reflexivity | lia].
    + intros [= <- <-]. exists 1%nat. split; [reflexivity | lia].
Qed.



End UpstreamMore.

Section ExploreTheorems.
Import Dates Http Aggregate Upstream TransportSpec.

Variable post_graphql : variables -> gexc page_result.
Variable sorted_at : string.
Variable clock : nat -> string.
Variable fuel : nat.
Variables lat lon distance_miles : R.
Variables start_date end_date : date.
Variable date_type : string.
Variables min_nights page_size total_guests : Z.
Variable pets_allowed : bool.

Local Abbreviation run :=
  (explore_map_multiple post_graphql sorted_at clock fuel lat lon
     distance_miles start_date end_date date_type min_nights page_size
     total_guests pets_allowed).

Local Abbreviation mode :=
  (if String.eqb date_type "flexible" then flexible else exact).

Local Abbreviation vars_for :=
  (fun formatted =>
     vars_page sorted_at clock (Polygon.make_polygon lat lon distance_miles)
               formatted date_type min_nights page_size total_guests
               pets_allowed).


(** X14. [explore_map_multiple] returns exactly when the dates are
    partitioned without an exception and the upstream service answers the
    pages 0, 1, 2 and so on until one says there is no more: it then
    returns the rows of these pages in page order and has posted one query
    per page, in order, all with the same filter and the same [sortedAt]
    and differing in the page number alone. *)
Theorem explore_map_multiple_pages
  (rows : list raw_listing) (posted : list variables) :
  run = Some (inr rows, posted)
  <-> exists formatted pages,
        formatted_date_range start_date end_date mode = Some (inr formatted)
        /\ pages_from post_graphql (vars_for formatted) 0 pages
        /\ (List.length pages <= fuel)%nat
        /\ rows = flat_map (fun res => rows_of_page pets_allowed (homeRecs res))
                           pages
        /\ posted = map (vars_for formatted) (seq 0 (List.length pages)).
Proof.
  unfold explore_map_multiple.
  destruct (formatted_date_range start_date end_date mode)
    as [[e | formatted] |] eqn:Hf.
  - split; [discriminate | intros (f & pages & [=] & _)].
  - cbv zeta. rewrite explore_loop_returns. split.
    + intros (pages & Hp & Hlen & Hrows & Hposted).
      exists formatted, pages. auto.
    + intros (f & pages & [= <-] & Hp & Hlen & Hrows & Hposted).
      exists pages. auto.
  - split; [discriminate | intros (f & pages & [=] & _)].
Qed.


(** X16. A date that is not a calendar date stops the search before any
    query: [explore_map_multiple] raises the [ValueError] of the parser and
    has posted nothing, in either date mode. *)
Theorem explore_map_multiple_invalid_date :
  valid_date start_date = false \/ valid_date end_date = false ->
  run = Some (inl (Builtin ValueError), []).
Proof.
  intros Hinv. unfold explore_map_multiple.
  assert (formatted_date_range start_date end_date mode
          = Some (inl ValueError)) as ->; [| reflexivity].
  destruct mode; cbn [formatted_date_range].
  - unfold make_monthly_date_ranges, strptime.
    destruct (valid_date start_date); cbv beta iota delta [ret raise];
      [| reflexivity].
    destruct Hinv as [? | ->]; [discriminate | reflexivity].
  - unfold to_iso_date_range, strptime.
    destruct (valid_date start_date); cbn [bind ret raise]; [| reflexivity].
    destruct Hinv as [? | ->]; [discriminate | reflexivity].
Qed.

Lemma make_monthly_date_ranges_no_window s e :
  valid_date s = true -> valid_date e = true -> date_ltb s e = false ->
  make_monthly_date_ranges s e = Some (inr []).
Proof.
  intros Vs Ve Hge. unfold make_monthly_date_ranges, strptime.
  rewrite Vs, Ve. cbv beta iota delta [ret]. unfold loop_fuel.
  rewrite Nat.add_comm. cbn [Nat.add monthly_loop]. rewrite Hge. reflexivity.
Qed.

(** X17. A flexible search over a range that does not end after its start
    is still sent upstream: every query of the search is posted with an
    empty list of date ranges, and at least one is posted. *)
Theorem explore_map_multiple_empty_date_ranges
  (out : gexc (list raw_listing)) (posted : list variables) :
  date_type = "flexible"%string ->
  valid_date start_date = true ->
  valid_date end_date = true ->
  date_ltb start_date end_date = false ->
  run = Some (out, posted) ->
  posted <> []
  /\ Forall (fun v => dateRanges (filter v) = []) posted.
Proof.
  intros Hflex Vs Ve Hge. unfold explore_map_multiple.
  rewrite Hflex. cbn [String.eqb Ascii.eqb Bool.eqb andb formatted_date_range].
  rewrite (make_monthly_date_ranges_no_window _ _ Vs Ve Hge). cbv zeta.
  intros Hrun. apply explore_loop_posted in Hrun.
  destruct Hrun as (n & -> & Hn). cbn [app]. split.
  - destruct n; [lia | discriminate].
  - apply Forall_map, Forall_forall. intros p _. reflexivity.
Qed.

End ExploreTheorems.


Lemma explore_map_multiple_invalid_date_witness :
  Upstream.explore_map_multiple
    ExampleUpstream.post_graphql "now" ExampleUpstream.clock 5
    39 (-106) 35 (Dates.mkDate 2025 2 30) (Dates.mkDate 2025 3 20)
    "flexible" 0 50 2 false
  = Some (inl (Http.Builtin ValueError), []).
Proof.
  apply explore_map_multiple_invalid_date. left. reflexivity.
Defined.

Lemma explore_map_multiple_empty_date_ranges_witness :
  Forall (fun v => Upstream.dateRanges (Upstream.filter v) = [])
         (map (Upstream.vars_page "now" ExampleUpstream.clock
                 (Polygon.make_polygon 39 (-106) 35) [] "flexible" 0 50 2 false)
              [0%nat; 1%nat]).
Proof.
  refine (proj2 (explore_map_multiple_empty_date_ranges
                   ExampleUpstream.post_graphql "now" ExampleUpstream.clock 5
                   39 (-106) 35 (Dates.mkDate 2025 1 10) (Dates.mkDate 2025 1 10)
                   "flexible" 0 50 2 false
                   (inr (map Upstream.row_of_home
                             [ExampleUpstream.lodge; ExampleUpstream.studio;
                              ExampleUpstream.loft]))
                   _ eq_refl eq_refl eq_refl eq_refl _)).
  reflexivity.
Defined.

(** ** The search route *)

Section RouteMore.
Import Dates Routing Aggregate AggregateSpec Search SearchSpec Token Route RouteSpec.

Lemma isin_In x values : isin x values = true <-> In x values.
Proof.
  unfold isin. rewrite existsb_exists. split.
  - intros (y & Hy & Heq). apply String.eqb_eq in Heq. subst. exact Hy.
  - intros H. exists x. split; [exact H | apply String.eqb_refl].
Qed.

Lemma filter_sublist {A} (f : A -> bool) l : sublist (List.filter f l) l.
Proof.
  induction l as [| x l IH]; cbn [List.filter]; [constructor |].
  destruct (f x); constructor; exact IH.
Qed.

Lemma sublist_trans {A} (l1 l2 l3 : list A) :
  sublist l1 l2 -> sublist l2 l3 -> sublist l1 l3.
Proof.
  intros H12 H23. revert l1 H12.
  induction H23 as [| x l2 l3 H23 IH | x l2 l3 H23 IH]; intros l1 H12.
  - exact H12.
  - constructor. apply IH, H12.
  - inversion H12; subst; constructor; apply IH; assumption.
Qed.

Lemma sublist_refl {A} (l : list A) : sublist l l.
Proof. induction l; constructor; assumption. Qed.

Lemma filter_threshold_in t column df l :
  In l (filter_threshold t column df) <-> In l df /\ meets t (column l).
Proof.
  unfold filter_threshold, meets. destruct t as [m |]; [| tauto].
  destruct (Qle_bool m 0) eqn:E.
  - apply Qle_bool_iff in E. tauto.
  - rewrite filter_In. unfold at_least.
    assert (~ (m <= 0)%Q) as Hm
        by (intros H; apply Qle_bool_iff in H; congruence).
    split.
    + intros [Hin Hle]. split; [exact Hin |]. right.
      destruct (column l) as [v |]; [| discriminate].
      exists v. split; [reflexivity | apply Qle_bool_iff, Hle].
    + intros [Hin [H0 | (v & -> & Hle)]]; [contradiction |].
      split; [exact Hin | apply Qle_bool_iff, Hle].
Qed.

Lemma filter_threshold_sublist t column df :
  sublist (filter_threshold t column df) df.
Proof.
  unfold filter_threshold. destruct t as [m |]; [| apply sublist_refl].
  destruct (Qle_bool m 0); [apply sublist_refl | apply filter_sublist].
Qed.

Lemma filter_locations_in data locations l :
  In l (filter_locations data locations) <-> In l locations /\ passes data l.
Proof.
  unfold filter_locations, passes.
  rewrite !filter_threshold_in.
  assert (In l match req_resorts data with
               | [] => match req_regions data with
                       | [] => locations
                       | _ :: _ =>
                           List.filter
                             (fun l0 => isin (row_region (loc_row l0))
                                             (req_regions data)) locations
                       end
               | _ :: _ =>
                   List.filter
                     (fun l0 => isin (row_resort (loc_row l0)) (req_resorts data))
                     match req_regions data with
                     | [] => locations
                     | _ :: _ =>
                         List.filter
                           (fun l0 => isin (row_region (loc_row l0))
                                           (req_regions data)) locations
                     end
               end
          <-> In l locations
              /\ (req_regions data = []
                  \/ In (row_region (loc_row l)) (req_regions data))
              /\ (req_resorts data = []
                  \/ In (row_resort (loc_row l)) (req_resorts data))) as H.
  { assert (In l match req_regions data with
                 | [] => locations
                 | _ :: _ =>
                     List.filter
                       (fun l0 => isin (row_region (loc_row l0))
                                       (req_regions data)) locations
                 end
            <-> In l locations
                /\ (req_regions data = []
                    \/ In (row_region (loc_row l)) (req_regions data))) as Hr.
    { destruct (req_regions data) as [| r rs] eqn:E.
      - tauto.
      - rewrite filter_In, isin_In. split.
        + intros [H1 H2]. auto.
        + intros [H1 [H2 | H2]]; [discriminate | auto]. }
    destruct (req_resorts data) as [| r rs] eqn:E.
    - rewrite Hr. tauto.
    - rewrite filter_In, isin_In, Hr. split.
      + intros [[H1 H2] H3]. auto.
      + intros (H1 & H2 & [H3 | H3]); [discriminate | auto]. }
  destruct (req_regions data) as [| r rs];
    destruct (req_resorts data) as [| r' rs']; rewrite H; tauto.
Qed.

(** X18. The filters of a search are combined with "and" and keep the order
    of the table: the resorts searched are the rows of the table, in table
    order, that are in the requested regions (if any are given), among the
    requested resorts (if any are given) and at or above each positive
    threshold; a threshold that is absent, zero or negative filters
    nothing, while a positive one also drops the resorts whose value is
    unknown. *)
Theorem filter_locations_passes (data : search_request)
  (locations : list location) :
  sublist (filter_locations data locations) locations
  /\ (forall l, In l (filter_locations data locations)
                <-> In l locations /\ passes data l).
Proof.
  split; [| apply filter_locations_in].
  unfold filter_locations.
  repeat (eapply sublist_trans; [apply filter_threshold_sublist |]).
  destruct (req_resorts data); destruct (req_regions data);
    repeat (eapply sublist_trans; [apply filter_sublist |]);
    apply sublist_refl.
Qed.

End RouteMore.

Section RouteReplies.
Import Dates Routing Aggregate AggregateSpec Search SearchSpec Token Route RouteSpec.

Lemma prefix_split s1 :
  forall s2,
    prefix s1 s2 = true ->
    s2 = (s1 ++ substring (String.length s1)
                          (String.length s2 - String.length s1) s2)%string.
Proof.
  induction s1 as [| c s1 IH]; intros s2.
  - intros _. cbn [append String.length].
    rewrite Nat.sub_0_r, substring_all. reflexivity.
  - destruct s2 as [| c' s2]; cbn [prefix append String.length];
      [discriminate |].
    destruct (ascii_dec c c') as [<- | Hne]; [| discriminate].
    intros H. cbn [String.length Nat.sub substring]. f_equal. apply IH, H.
Qed.

(** The token of a request is what follows [Bearer ] in its header. *)
Lemma get_token_some authorization tok :
  get_token_from_request authorization = Some tok
  <-> authorization = Some ("Bearer " ++ tok)%string.
Proof.
  split.
  - unfold get_token_from_request.
    destruct authorization as [h |]; [| discriminate].
    destruct (prefix "Bearer " h) eqn:E; [| discriminate].
    intros [= <-]. f_equal. apply (prefix_split "Bearer " h E).
  - intros ->. apply get_token_of_bearer.
Qed.

Variable key : option string.
Variable post : route_request -> exc response.
Variable explore : search_params -> resort_row -> exc (list raw_listing).
Variable locations : list location.

Local Abbreviation route := (search_route key post explore locations).

(** A request is authorised when its header is [Bearer ] followed by a
    token that is not empty. *)
Local Abbreviation authorised authorization :=
  (exists t, t <> ""%string /\ authorization = Some ("Bearer " ++ t)%string).

Lemma route_unauthorised authorization data :
  ~ authorised authorization ->
  route authorization data = (401, Error AuthenticationRequired).
Proof.
  intros Hno. unfold search_route.
  destruct (get_token_from_request authorization) as [tok |] eqn:Ht;
    [| reflexivity].
  destruct (String.eqb tok "") eqn:E; [reflexivity |].
  exfalso. apply Hno. exists tok. split.
  - apply String.eqb_neq, E.
  - apply get_token_some, Ht.
Qed.

Lemma route_authorised authorization data t :
  t <> ""%string ->
  authorization = Some ("Bearer " ++ t)%string ->
  route authorization data
  = match req_startDate data, req_endDate data with
    | Some start_date, Some end_date =>
        match filter_locations data locations with
        | [] => (200, Results [])
        | resort_df =>
            match search key post
                    (explore
                       (mkParams (start_date, end_date)
                                 (default (req_dateType data) "flexible"%string)
                                 (default (req_mileRange data) 35%Q)
                                 50
                                 (default (req_minNights data) 0)
                                 t
                                 (default (req_numberOfPeople data) 0)
                                 (default (req_petsAllowed data) false)))
                    (map loc_row resort_df) start_date end_date with
            | inr formatted_results => (200, Results formatted_results)
            | inl e => (500, Error (Raised e))
            end
        end
    | _, _ => (400, Error DatesRequired)
    end.
Proof.
  intros Hne ->. unfold search_route. rewrite get_token_of_bearer.
  apply String.eqb_neq in Hne. rewrite Hne. reflexivity.
Qed.

(** X19. The replies of the search route: 401 exactly when the
    [Authorization] header is not [Bearer ] followed by a non-empty token,
    whatever the body; 400 exactly when the request is authorised and a
    date is missing; never a status other than 200, 400, 401 and 500; and
    when no resort passes the filters of an authorised request with both
    dates, an empty list of results under 200, whatever the upstream
    services would do. *)
Theorem search_route_replies (authorization : option string)
  (data : search_request) :
  (fst (route authorization data) = 401 <-> ~ authorised authorization)
  /\ (fst (route authorization data) = 400
      <-> authorised authorization
          /\ (req_startDate data = None \/ req_endDate data = None))
  /\ (fst (route authorization data) = 200
      \/ fst (route authorization data) = 400
      \/ fst (route authorization data) = 401
      \/ fst (route authorization data) = 500)
  /\ (authorised authorization ->
      req_startDate data <> None -> req_endDate data <> None ->
      filter_locations data locations = [] ->
      route authorization data = (200, Results [])).
Proof.
  assert ((authorised authorization) \/ ~ (authorised authorization)) as [Ha | Hno].
  { destruct (get_token_from_request authorization) as [tok |] eqn:Ht.
    - destruct (string_dec tok "") as [-> | Hne].
      + right. intros (t & Hne & ->). rewrite get_token_of_bearer in Ht.
        congruence.
      + left. exists tok. split; [exact Hne | apply get_token_some, Ht].
    - right. intros (t & Hne & ->). rewrite get_token_of_bearer in Ht.
      discriminate. }
  - destruct Ha as (t & Hne & Hauth).
    rewrite (route_authorised authorization data t Hne Hauth).
    assert (authorised authorization) as Ha by eauto.
    destruct (req_startDate data) as [s |];
      [destruct (req_endDate data) as [e |] |].
    + assert (forall st : Z,
                st <> 401 -> st <> 400 ->
                (st = 401 <-> ~ authorised authorization)
                /\ (st = 400
                    <-> authorised authorization
                        /\ (Some s = None \/ Some e = None))) as Htable.
      { intros st H1 H0. split; split.
        - intros Heq. contradiction.
        - intros Hno. contradiction.
        - intros Heq. contradiction.
        - intros (_ & [? | ?]); discriminate. }
      destruct (filter_locations data locations) as [| l df] eqn:Hf.
      * cbn [fst]. destruct (Htable 200 ltac:(lia) ltac:(lia)) as [H1 H0].
        repeat (split; [assumption || (left; reflexivity) |]).
        reflexivity.
      * destruct (search _ _ _ _ _ _) as [err | out]; cbn [fst].
        -- destruct (Htable 500 ltac:(lia) ltac:(lia)) as [H1 H0].
           split; [exact H1 |]. split; [exact H0 |].
           split; [auto |]. discriminate.
        -- destruct (Htable 200 ltac:(lia) ltac:(lia)) as [H1 H0].
           split; [exact H1 |]. split; [exact H0 |].
           split; [auto |]. discriminate.
    + cbn [fst]. split; [| split; [| split]].
      * split; [discriminate | contradiction].
      * split; auto.
      * auto.
      * intros _ _ Hend. congruence.
    + cbn [fst]. split; [| split; [| split]].
      * split; [discriminate | contradiction].
      * split; auto.
      * auto.
      * intros _ Hstart. congruence.
  - rewrite (route_unauthorised authorization data Hno). cbn [fst].
    split; [| split; [| split]].
    + split; auto.
    + split; [discriminate | intros [Ha _]; contradiction].
    + auto.
    + intros Ha. contradiction.
Qed.

End RouteReplies.

Section RouteResorts.
Import Dates Routing Aggregate AggregateSpec Search SearchSpec Token Route RouteSpec.

Lemma collect_in explore df collected t :
  collect explore df = inr collected ->
  In t collected ->
  exists row, In row df /\ resort t = row_resort row.
Proof.
  revert collected. induction df as [| row df IH]; intros collected;
    cbn [collect].
  - intros [= <-] [].
  - destruct (explore row) as [e | results]; cbn [bind]; [discriminate |].
    destruct (collect explore df) as [e | rest]; cbn [bind ret];
      [discriminate |].
    intros [= <-] Hin. apply in_app_or in Hin. destruct Hin as [Hin | Hin].
    + apply in_map_iff in Hin. destruct Hin as (result & <- & _).
      exists row. split; [left; reflexivity | reflexivity].
    + destruct (IH rest eq_refl Hin) as (row' & Hrow & Heq).
      exists row'. split; [right; exact Hrow | exact Heq].
Qed.

Lemma add_driving_time_tagged key post t r :
  add_driving_time key post t = inr r -> tagged r = t.
Proof.
  intros Hr. destruct (add_driving_time_returns key post t) as [time Ht].
  rewrite Ht in Hr. injection Hr as <-. reflexivity.
Qed.

(** The rows of a run come from the resorts of the run. *)
Lemma results_full_resorts key post explore df rows r :
  results_full key post explore df = inr rows ->
  In r rows ->
  exists row, In row df /\ resort (tagged r) = row_resort row.
Proof.
  unfold results_full.
  destruct (collect explore df) as [e | collected] eqn:Hc; cbn [bind];
    [discriminate |].
  intros Hrows Hr.
  destruct (add_driving_times_in key post collected rows r Hrows Hr)
    as (t & Ht & Hadd).
  rewrite (add_driving_time_tagged _ _ _ _ Hadd).
  eapply collect_in; eassumption.
Qed.

(** X20. A reply names no resort that the request filtered out: in a reply
    with results, the resort of every row and the resort of every entry of
    its [resorts] list is a resort of the table that passes the filters of
    the request. *)
Theorem search_route_resorts
  (key : option string) (post : route_request -> exc response)
  (explore : search_params -> resort_row -> exc (list raw_listing))
  (locations : list location)
  (authorization : option string) (data : search_request)
  (out : list search_result) (sr : search_result) :
  search_route key post explore locations authorization data
  = (200, Results out) ->
  In sr out ->
  (exists l, In l locations /\ passes data l
             /\ sr_resort sr = row_resort (loc_row l))
  /\ exists entries,
       sr_resorts sr = ResortsList entries
       /\ forall e, In e entries ->
            exists l, In l locations /\ passes data l
                      /\ entry_resort e = row_resort (loc_row l).
Proof.
  unfold search_route.
  destruct (get_token_from_request authorization) as [tok |]; [| discriminate].
  destruct (String.eqb tok ""); [discriminate |].
  destruct (req_startDate data) as [s |]; [| discriminate].
  destruct (req_endDate data) as [e |]; [| discriminate].
  destruct (filter_locations data locations) as [| l0 df0] eqn:Hf.
  { intros [= <-] []. }
  cbv zeta.
  match goal with
  | |- context [search key post ?ex ?df s e] =>
      destruct (search key post ex df s e) as [err | res] eqn:Hsearch
  end; [discriminate |].
  intros [= <-] Hsr.
  destruct (search_inv _ _ _ _ _ _ _ Hsearch) as (results & Hrun & _ & _ & ->).
  destruct (resort_map_multiple_inv _ _ _ _ _ Hrun) as (rows & Hrows & ->).
  assert (forall r, In r rows ->
            exists l, In l locations /\ passes data l
                      /\ resort (tagged r) = row_resort (loc_row l)) as Hfrom.
  { intros r Hr.
    destruct (results_full_resorts _ _ _ _ _ _ Hrows Hr) as (row & Hrow & Heq).
    apply in_map_iff in Hrow. destruct Hrow as (l & <- & Hl).
    rewrite <- Hf in Hl. apply filter_locations_in in Hl.
    exists l. tauto. }
  apply format_results_in in Hsr. destruct Hsr as (h & Hh & _ & ->).
  destruct (aggregate_home rows h Hh) as (k & rs & _ & _ & Hr & Hres & _).
  assert (forall r, In r (base h :: rs) -> In r rows) as Hin.
  { intros r Hin. rewrite <- Hr in Hin. apply filter_In in Hin. apply Hin. }
  cbn [format_result sr_resort sr_resorts]. split.
  - apply Hfrom, Hin. left. reflexivity.
  - destruct (resorts h) as [| e0 l1] eqn:Hl.
    { apply (f_equal (@List.length _)) in Hres.
      rewrite sort_by_length in Hres. discriminate. }
    exists (e0 :: l1). split; [reflexivity |].
    intros en Hen. rewrite Hres in Hen. apply sort_by_in, in_map_iff in Hen.
    destruct Hen as (r & <- & Hrin). cbn [entry_of entry_resort].
    apply Hfrom, Hin, Hrin.
Qed.

End RouteResorts.

Lemma search_route_replies_witness :
  fst (Route.search_route Example.api_key Example.post ExampleRoute.explore
         ExampleRoute.table (Some "Basic dXNlcg=="%string) ExampleRoute.request)
  = 401.
Proof.
  apply (search_route_replies Example.api_key Example.post ExampleRoute.explore
           ExampleRoute.table (Some "Basic dXNlcg=="%string)
           ExampleRoute.request).
  intros (t & _ & [=]).
Defined.

Lemma search_route_resorts_witness :
  exists l,
    In l ExampleRoute.table
    /\ RouteSpec.passes ExampleRoute.request l
    /\ Search.sr_resort ExampleRoute.first_row
       = Aggregate.row_resort (Route.loc_row l).
Proof.
  apply (search_route_resorts Example.api_key Example.post ExampleRoute.explore
           ExampleRoute.table (Some "Bearer token"%string) ExampleRoute.request
           ExampleRoute.rows_replied ExampleRoute.first_row).
  - vm_compute. reflexivity.
  - left. reflexivity.
Defined.

Section RouteDates.
Import Dates Routing Aggregate AggregateSpec Search SearchSpec Token Route RouteSpec.

Variable key : option string.
Variable post : route_request -> exc response.
Variable explore : search_params -> resort_row -> exc (list raw_listing).
Variable locations : list location.

(** X21. The dates of a request are read only once there is a resort to
    search: for an authorised request whose start or end date is not a
    calendar date, the reply is 500 when some resort passes the filters,
    and an empty list of results under 200 when none does. *)
Theorem search_route_invalid_date
  (t : string) (data : search_request) (start_date end_date : date) :
  t <> ""%string ->
  req_startDate data = Some start_date ->
  req_endDate data = Some end_date ->
  valid_date start_date = false \/ valid_date end_date = false ->
  (filter_locations data locations = [] ->
   search_route key post explore locations
                (Some ("Bearer " ++ t)%string) data
   = (200, Results []))
  /\ (filter_locations data locations <> [] ->
      fst (search_route key post explore locations
                        (Some ("Bearer " ++ t)%string) data)
      = 500).
Proof.
  intros Ht Hs He Hinv.
  rewrite (route_authorised key post explore locations _ data t Ht eq_refl).
  rewrite Hs, He. split.
  - intros ->. reflexivity.
  - intros Hne.
    destruct (filter_locations data locations) as [| l df]; [congruence |].
    unfold search.
    match goal with
    | |- context [resort_map_multiple key post ?ex ?d] =>
        destruct (resort_map_multiple key post ex d) as [err | results]
    end; cbn [bind]; [reflexivity |].
    unfold strptime.
    destruct (valid_date start_date); cbn [bind ret raise]; [| reflexivity].
    destruct Hinv as [? | ->]; [discriminate | reflexivity].
Qed.

End RouteDates.

Lemma search_route_invalid_date_witness :
  fst (Route.search_route Example.api_key Example.post ExampleRoute.explore
         ExampleRoute.table (Some ("Bearer " ++ "token")%string)
         (Route.mkSearchRequest (Some (Dates.mkDate 2025 2 30))
                                (Some (Dates.mkDate 2025 3 20))
                                [] [] None None None None None None None None))
  = 500.
Proof.
  apply (search_route_invalid_date
           Example.api_key Example.post ExampleRoute.explore ExampleRoute.table
           "token" _ (Dates.mkDate 2025 2 30) (Dates.mkDate 2025 3 20)).
  - discriminate.
  - reflexivity.
  - reflexivity.
  - left. reflexivity.
  - discriminate.
Defined.
